(** * CustomScheduler: a shallow embedding of [pkg/plugins/scheduler.go]

    The plugin has four entry points: [New] (configuration), [PreFilter]
    (group quorum), [Score] (allocatable memory, signed by the mode) and
    [NormalizeScore] (min-max rescaling of a score batch, in place).

    Conventions of the embedding:
    - Go's [int] and [int64] are 64-bit two's complement: a value is a [Z]
      and every arithmetic result goes through [wrap64];
    - a Go [string] is a [string] of 8-bit characters, [[]byte(s)] is the
      list of their codes;
    - [map[string]string] is a [gmap string string];
    - calls that leave the plugin (the logger, the pod lister, the node
      snapshot) are nodes of the program tree [Prog]; running a tree
      gives the returned value and the list of calls that were made, in
      order, the lookups being answered by the [Handle] they name;
    - the context and the cycle state, which no entry point reads, are
      left out. *)

From Stdlib Require Import ZArith Lia String Ascii List Bool.
From stdpp Require Import base option list strings gmap.

Local Open Scope string_scope.
Local Open Scope list_scope.
Local Open Scope Z_scope.

(** ** 64-bit integers *)

Module Int64.

Definition MinInt64 : Z := - 2 ^ 63.
Definition MaxInt64 : Z := 2 ^ 63 - 1.

Definition in_range (z : Z) : Prop := MinInt64 <= z <= MaxInt64.

(** The value a 64-bit signed register holds after computing [z]. *)
Definition wrap64 (z : Z) : Z := (z + 2 ^ 63) mod 2 ^ 64 - 2 ^ 63.

Definition add (a b : Z) : Z := wrap64 (a + b).
Definition sub (a b : Z) : Z := wrap64 (a - b).
Definition mul (a b : Z) : Z := wrap64 (a * b).
Definition neg (a : Z) : Z := wrap64 (- a).

(** Go's [/] truncates toward zero and panics on a zero divisor
    ([None]); [MinInt64 / -1] wraps to [MinInt64]. *)
Definition div (a b : Z) : option Z :=
  if b =? 0 then None else Some (wrap64 (a ÷ b)).

End Int64.

(** ** Strings as bytes *)

Definition byte_of (c : ascii) : Z := Z.of_N (N_of_ascii c).

Definition bytes (s : string) : list Z := map byte_of (list_ascii_of_string s).

(** ** [strconv.Atoi]

    Library code the plugin calls on the [minAvailable] label; the model
    follows [strconv/atoi.go] for [intSize = 64]: a fast path for strings
    shorter than 19 bytes and [ParseInt(s, 10, 0)] for the rest. Both
    return the number together with the error; [PreFilter] drops the
    error and keeps the number. *)

Module strconv.

Inductive NumError : Type := ErrSyntax | ErrRange.

Definition intSize : Z := 64.
Definition maxUint64 : Z := 2 ^ 64 - 1.

Definition wrapU64 (z : Z) : Z := z mod 2 ^ 64.
Definition wrapU8 (z : Z) : Z := z mod 2 ^ 8.

(** [lower(c) = c | ('x' - 'X')] *)
Definition lower (c : Z) : Z := Z.lor c 32.

(** The digit a byte stands for in [ParseUint]'s [switch]; [None] is
    the [default] branch. (The ['_'] case needs [base == 0].) *)
Definition digit_of (c : Z) : option Z :=
  if (48 <=? c) && (c <=? 57) then Some (c - 48)
  else if (97 <=? lower c) && (lower c <=? 122) then Some (lower c - 97 + 10)
  else None.

(** The loop of [ParseUint], [n] being the number read so far. *)
Fixpoint ParseUint_loop (base cutoff maxVal n : Z) (s : list Z)
  : Z * option NumError :=
  match s with
  | [] => (n, None)
  | c :: s' =>
      match digit_of c with
      | None => (0, Some ErrSyntax)
      | Some d =>
          if d >=? base then (0, Some ErrSyntax)
          else if n >=? cutoff then (maxVal, Some ErrRange)
          else
            let n := wrapU64 (n * base) in
            let n1 := wrapU64 (n + d) in
            if (n1 <? n) || (n1 >? maxVal) then (maxVal, Some ErrRange)
            else ParseUint_loop base cutoff maxVal n1 s'
      end
  end.

(** [cutoff = maxUint64/10 + 1], the least number whose tenfold
    overflows, and [maxVal = uint64(1)<<uint(bitSize) - 1]. *)
Definition cutoff10 : Z := maxUint64 ÷ 10 + 1.
Definition maxVal64 : Z := wrapU64 (wrapU64 (2 ^ intSize) - 1).

(** [ParseUint(s, 10, 0)] *)
Definition ParseUint (s : list Z) : Z * option NumError :=
  match s with
  | [] => (0, Some ErrSyntax)
  | _ => ParseUint_loop 10 cutoff10 maxVal64 0 s
  end.

(** [ParseInt(s, 10, 0)] *)
Definition ParseInt (s : list Z) : Z * option NumError :=
  match s with
  | [] => (0, Some ErrSyntax)
  | c :: rest =>
      let '(neg, s1) :=
        if c =? 43 then (false, rest)
        else if c =? 45 then (true, rest)
        else (false, s) in
      match ParseUint s1 with
      | (_, Some ErrSyntax) => (0, Some ErrSyntax)
      | (un, _) =>
          let cutoff := 2 ^ (intSize - 1) in
          if negb neg && (un >=? cutoff) then (Int64.wrap64 (cutoff - 1), Some ErrRange)
          else if neg && (un >? cutoff) then (Int64.neg (Int64.wrap64 cutoff), Some ErrRange)
          else
            let n := Int64.wrap64 un in
            (if neg then Int64.neg n else n, None)
      end
  end.

(** The loop of [Atoi]'s fast path; [None] is the syntax error. *)
Fixpoint Atoi_loop (n : Z) (s : list Z) : option Z :=
  match s with
  | [] => Some n
  | ch :: s' =>
      let ch := wrapU8 (ch - 48) in
      if ch >? 9 then None
      else Atoi_loop (Int64.add (Int64.mul n 10) ch) s'
  end.

Definition is_sign (c : Z) : bool := (c =? 45) || (c =? 43).

Definition Atoi (s : string) : Z * option NumError :=
  let s0 := bytes s in
  let sLen := Z.of_nat (length s0) in
  if (0 <? sLen) && (sLen <? 19) then
    match s0 with
    | [] => (0, Some ErrSyntax)
    | c0 :: rest =>
        let s1 := if is_sign c0 then rest else s0 in
        if is_sign c0 && (Z.of_nat (length s1) <? 1) then (0, Some ErrSyntax)
        else
          match Atoi_loop 0 s1 with
          | None => (0, Some ErrSyntax)
          | Some n => (if c0 =? 45 then Int64.neg n else n, None)
          end
    end
  else
    let '(i64, err) := ParseInt s0 in (i64, err).

End strconv.

(** ** The scheduler framework's types ([k8s.io/kubernetes/pkg/scheduler/framework]) *)

Module framework.

Inductive Code : Type :=
| Success | Error | Unschedulable | UnschedulableAndUnresolvable
| Wait | Skip | Pending.

Record Status : Type := mkStatus {
  code : Code;
  reasons : list string;
  err : option string
}.

(** [strings.Join(s.reasons, ", ")] *)
Definition Message_of (rs : list string) : string := String.concat ", " rs.

Definition NewStatus (c : Code) (rs : list string) : Status :=
  {| code := c; reasons := rs;
     err := match c with Error => Some (Message_of rs) | _ => None end |}.

(** A [*Status]; [nil] is [None] and counts as success. *)
Definition Code_of (s : option Status) : Code :=
  match s with None => Success | Some st => code st end.

Definition Message (s : option Status) : string :=
  match s with None => EmptyString | Some st => Message_of (reasons st) end.

(** [NodeNames] is a set that may be nil. *)
Record PreFilterResult : Type := { NodeNames : option (gset string) }.

(** [AllNodes] of a [*PreFilterResult]: no node is filtered out. *)
Definition AllNodes (p : option PreFilterResult) : bool :=
  match p with
  | None => true
  | Some r => match NodeNames r with None => true | Some _ => false end
  end.

Record NodeScore : Type := mkNodeScore { Name : string; Score : Z }.

Abbreviation NodeScoreList := (list NodeScore).

(** Modelled from the spec: the host's constant [MaxNodeScore], which
    is declared in the framework package; the spec gives it as 100. *)
Definition MaxNodeScore : Z := 100.

End framework.

Import framework.

(** ** Cluster objects and the handle *)

Record Pod : Type := mkPod {
  pod_Name : string;
  pod_Namespace : string;
  pod_Labels : gmap string string
}.

(** What [Score] reads of a node:
    [nodeInfo.Node().Status.Allocatable.Memory().Value()], an [int64]. *)
Record NodeInfo : Type := mkNodeInfo { Allocatable_Memory_Value : Z }.

(** A Go result pair [(v, err)] of a lookup: either the value, with a nil
    error, or the error, given by its [Error()] text. *)
Inductive result (A : Type) : Type :=
| Ok (v : A)
| Fail (err : string).
Arguments Ok {A} v.
Arguments Fail {A} err.

(** [framework.Handle], reduced to the two lookups the plugin makes:
    [SharedInformerFactory().Core().V1().Pods().Lister().Pods(ns).List(sel)]
    with the selector given by its label set, and
    [SnapshotSharedLister().NodeInfos().Get(name)]. *)
Record Handle : Type := mkHandle {
  Pods_List : string -> gmap string string -> result (list Pod);
  NodeInfos_Get : string -> result NodeInfo
}.

(** ** Programs and the calls they make *)

Inductive Call : Type :=
| CLog (msg : string)                                  (* log.Printf *)
| CPrint (msg : string)                                (* fmt.Printf *)
| CList (namespace : string) (selector : gmap string string)
| CGet (nodeName : string).

Inductive Prog (A : Type) : Type :=
| Ret (a : A)
| Log (msg : string) (k : Prog A)
| Print (msg : string) (k : Prog A)
| List_ (h : Handle) (namespace : string) (selector : gmap string string)
        (k : result (list Pod) -> Prog A)
| Get (h : Handle) (nodeName : string) (k : result NodeInfo -> Prog A).
Arguments Ret {A} a.
Arguments Log {A} msg k.
Arguments Print {A} msg k.
Arguments List_ {A} h namespace selector k.
Arguments Get {A} h nodeName k.

(** The value a program returns and the calls it made, oldest first. *)
Fixpoint run {A : Type} (p : Prog A) : A * list Call :=
  match p with
  | Ret a => (a, [])
  | Log msg k => let '(a, t) := run k in (a, CLog msg :: t)
  | Print msg k => let '(a, t) := run k in (a, CPrint msg :: t)
  | List_ h ns sel k =>
      let '(a, t) := run (k (Pods_List h ns sel)) in (a, CList ns sel :: t)
  | Get h name k =>
      let '(a, t) := run (k (NodeInfos_Get h name)) in (a, CGet name :: t)
  end.

Definition value {A : Type} (p : Prog A) : A := fst (run p).
Definition calls {A : Type} (p : Prog A) : list Call := snd (run p).

Definition is_lookup (c : Call) : bool :=
  match c with CList _ _ | CGet _ => true | _ => false end.

(** ** The plugin *)

Record CustomSchedulerArgs : Type := mkArgs { Mode : string }.

Record CustomScheduler : Type := mkCS {
  handle : Handle;
  scoreMode : string
}.

Definition Name : string := "CustomScheduler".
Definition groupNameLabel : string := "podGroup".
Definition minAvailableLabel : string := "minAvailable".
Definition leastMode : string := "Least".
Definition mostMode : string := "Most".

(** [runtime.Unknown], the only dynamic type [New] accepts for [obj]. *)
Record Unknown : Type := mkUnknown { Raw : list Z }.

Section Configuration.

(** [encoding/json]'s [Unmarshal(data, &v)] at type [CustomSchedulerArgs]:
    library code, taken as it comes. It gets the bytes and the value
    [v] points to, and gives the value left there and the error. *)
Variable json_Unmarshal :
  list Z -> CustomSchedulerArgs -> CustomSchedulerArgs * option string.

(** [New]: the plugin and the error; [obj] is [None] for [nil]. *)
Definition New (obj : option Unknown) (h : Handle)
  : Prog (option CustomScheduler * option string) :=
  let mode := leastMode in
  let finish (mode : string) :=
    Log ("Custom scheduler runs with the mode: " +:+ mode +:+ ".")
      (Ret (Some {| handle := h; scoreMode := mode |}, None)) in
  match obj with
  | None => finish mode
  | Some args =>
      let csArgs := {| Mode := EmptyString |} in
      let '(csArgs, err) := json_Unmarshal (Raw args) csArgs in
      let check :=
        let mode := Mode csArgs in
        if negb (String.eqb mode leastMode) && negb (String.eqb mode mostMode)
        then Ret (None, Some ("invalid mode, got " +:+ mode))
        else finish mode in
      match err with
      | Some e => Print ("Error unmarshal: " +:+ e +:+ String (ascii_of_nat 10) EmptyString) check
      | None => check
      end
  end.

End Configuration.

(** [PreFilter]; the context and the cycle state are not used. *)
Definition PreFilter (cs : CustomScheduler) (pod : Pod)
  : Prog (option PreFilterResult * Status) :=
  Log ("Pod " +:+ pod_Name pod +:+ " is in Prefilter phase.")
    (let newStatus := NewStatus Success [EmptyString] in
     let '(label, exists_) :=
       match pod_Labels pod !! groupNameLabel with
       | Some v => (v, true)
       | None => (EmptyString, false)
       end in
     let minAvailable := default EmptyString (pod_Labels pod !! minAvailableLabel) in
     if negb exists_ then Ret (None, NewStatus Success ["no group label"])
     else
       let selector : gmap string string := {[ groupNameLabel := label ]} in
       List_ (handle cs) (pod_Namespace pod) selector (fun r =>
         match r with
         | Fail e => Ret (None, NewStatus Error [e])
         | Ok pods =>
             let '(minAvailableInt, _) := strconv.Atoi minAvailable in
             if Z.of_nat (length pods) <? minAvailableInt
             then Ret (None, NewStatus Unschedulable ["not enough pods in the group"])
             else Ret (None, newStatus)
         end)).

(** [Score]: the raw score and a [*Status] ([None] for [nil]). *)
Definition Score (cs : CustomScheduler) (pod : Pod) (nodeName : string)
  : Prog (Z * option Status) :=
  Log ("Pod " +:+ pod_Name pod +:+ " is in Score phase. Calculate the score of Node "
       +:+ nodeName +:+ ".")
    (Get (handle cs) nodeName (fun r =>
       match r with
       | Fail e => Ret (0, Some (NewStatus Error [e]))
       | Ok nodeInfo =>
           let nodeMemory := Allocatable_Memory_Value nodeInfo in
           if String.eqb (scoreMode cs) leastMode then Ret (Int64.neg nodeMemory, None)
           else if String.eqb (scoreMode cs) mostMode then Ret (nodeMemory, None)
           else Ret (0, None)
       end)).

(** *** [NormalizeScore]

    The slice is the caller's: the function returns the slice as it is
    left after the call, with the status. [None] is a run-time panic (an
    index out of range, a division by zero). *)

(** [for i := range scores { body }], the length read once. *)
Definition for_range {S : Type} (n : nat) (body : nat -> S -> option S) (s : S)
  : option S :=
  foldl (fun acc i => acc ≫= body i) (Some s) (seq 0 n).

(** [scores[i].Score = f(scores[i].Score)] *)
Definition assign_Score (f : Z -> option Z) (i : nat) (scores : NodeScoreList)
  : option NodeScoreList :=
  ns ← scores !! i;
  v ← f (framework.Score ns);
  Some (<[ i := mkNodeScore (framework.Name ns) v ]> scores).

(** The first loop: the running minimum and maximum. *)
Definition scan_step (acc : Z * Z) (nodeScore : NodeScore) : Z * Z :=
  let '(minScore, maxScore) := acc in
  let minScore := if framework.Score nodeScore <? minScore then framework.Score nodeScore else minScore in
  let maxScore := if framework.Score nodeScore >? maxScore then framework.Score nodeScore else maxScore in
  (minScore, maxScore).

Definition NormalizeScore (cs : CustomScheduler) (pod : Pod) (scores : NodeScoreList)
  : option (NodeScoreList * Status) :=
  match scores with
  | [] => Some (scores, NewStatus Success ["No scores to normalize"])
  | s0 :: _ =>
      let '(minScore, maxScore) := foldl scan_step (framework.Score s0, framework.Score s0) scores in
      let validMin := 0 in
      let validMax := MaxNodeScore in
      if minScore =? maxScore then
        scores' ← for_range (length scores)
                    (assign_Score (fun _ => Int64.div (Int64.add validMin validMax) 2))
                    scores;
        Some (scores', NewStatus Success [EmptyString])
      else
        let scoreRange := Int64.sub maxScore minScore in
        let validRange := Int64.sub validMax validMin in
        scores' ← for_range (length scores)
                    (assign_Score (fun old =>
                       q ← Int64.div (Int64.mul (Int64.sub old minScore) validRange) scoreRange;
                       Some (Int64.add q validMin)))
                    scores;
        Some (scores', NewStatus Success [EmptyString])
  end.

(** ** Decimal integers, as the specification reads the label *)

Definition is_digit (c : Z) : bool := (48 <=? c) && (c <=? 57).

(** The bytes after an optional leading sign. *)
Definition unsigned_part (s : list Z) : list Z :=
  match s with
  | c :: rest => if strconv.is_sign c then rest else s
  | [] => []
  end.

Fixpoint leading_digits (s : list Z) : list Z :=
  match s with
  | c :: s' => if is_digit c then c :: leading_digits s' else []
  | [] => []
  end.

Definition digits_from (n : Z) (ds : list Z) : Z :=
  foldl (fun n c => n * 10 + (c - 48)) n ds.

Definition digits_value (ds : list Z) : Z := digits_from 0 ds.

(** One or more decimal digits, and nothing else. *)
Definition nonempty_digits (u : list Z) : bool :=
  match u with [] => false | _ => forallb is_digit u end.

(** An optional sign followed by one or more decimal digits. *)
Definition well_formed_decimal (s : string) : bool :=
  nonempty_digits (unsigned_part (bytes s)).

(** The integer a well-formed decimal denotes. *)
Definition decimal_value (s : string) : Z :=
  let v := digits_value (unsigned_part (bytes s)) in
  match bytes s with
  | c :: _ => if c =? 45 then - v else v
  | [] => v
  end.

(** The number written by the digits that follow the optional sign, up
    to the first byte that is not a digit. *)
Definition leading_value (s : string) : Z :=
  digits_value (leading_digits (unsigned_part (bytes s))).

(** ** Score batches, as the specification reads them *)

(** The entry with its score replaced by [g] of the old score. *)
Definition rescore (g : Z -> Z) (ns : NodeScore) : NodeScore :=
  mkNodeScore (framework.Name ns) (g (framework.Score ns)).

Definition is_min_score (m : Z) (scores : NodeScoreList) : Prop :=
  (exists ns, ns ∈ scores /\ framework.Score ns = m) /\
  (forall ns, ns ∈ scores -> m <= framework.Score ns).

Definition is_max_score (m : Z) (scores : NodeScoreList) : Prop :=
  (exists ns, ns ∈ scores /\ framework.Score ns = m) /\
  (forall ns, ns ∈ scores -> framework.Score ns <= m).

(** Every raw score is an [int64]. *)
Definition int64_scores (scores : NodeScoreList) : Prop :=
  forall ns, ns ∈ scores -> Int64.in_range (framework.Score ns).

(** The right-hand side of the assignment in the last loop, as the
    64-bit registers compute it. *)
Definition normalized64 (minScore maxScore raw : Z) : Z :=
  Int64.add
    (Int64.wrap64
       (Int64.mul (Int64.sub raw minScore) (Int64.sub MaxNodeScore 0)
        ÷ Int64.sub maxScore minScore))
    0.

(** The same over the integers: no register wraps. *)
Definition normalized (minScore maxScore raw : Z) : Z :=
  (raw - minScore) * MaxNodeScore ÷ (maxScore - minScore).

(** ** An in-memory cluster, for running the plugin on examples *)

Definition matches (selector : gmap string string) (p : Pod) : bool :=
  bool_decide (map_Forall (fun k v => pod_Labels p !! k = Some v) selector).

Definition dq : string := String (ascii_of_nat 34) EmptyString.

(** A handle over a list of pods and a table of allocatable memory. *)
Definition cluster (pods : list Pod) (nodes : gmap string Z) : Handle :=
  {| Pods_List := fun ns selector =>
       Ok (filter (fun p => String.eqb (pod_Namespace p) ns && matches selector p = true) pods);
     NodeInfos_Get := fun name =>
       match nodes !! name with
       | Some m => Ok (mkNodeInfo m)
       | None => Fail ("nodeinfo not found for node name " +:+ dq +:+ name +:+ dq)
       end |}.

(** A handle whose lookups all fail with the error [e]. *)
Definition unreachable (e : string) : Handle :=
  {| Pods_List := fun _ _ => Fail e; NodeInfos_Get := fun _ => Fail e |}.

Definition member (name group : string) : Pod :=
  mkPod name "default" {[ groupNameLabel := group ]}.

Definition two_members : list Pod :=
  [member "w0" "train"; member "w1" "train"; member "x0" "other"].

Definition three_members : list Pod :=
  member "w2" "train" :: two_members.

Definition worker (minAvailable : string) : Pod :=
  mkPod "w3" "default" {[ groupNameLabel := "train"; minAvailableLabel := minAvailable ]}.

Definition two_nodes : gmap string Z := {[ "nodeA" := 4096; "nodeB" := 8192 ]}.

(** The payload [{"mode":"Least","mode":1}]: [mode] is given twice,
    first as a string and then as a number. *)
Definition payload_mode_twice : list Z :=
  bytes ("{" +:+ dq +:+ "mode" +:+ dq +:+ ":" +:+ dq +:+ "Least" +:+ dq +:+ ","
         +:+ dq +:+ "mode" +:+ dq +:+ ":1}").

(** [encoding/json] on [payload_mode_twice], and only there: the string
    is stored, the number does not fit the field and is skipped, and
    after the object has been read the type error is returned. On other
    bytes this function reports an error and leaves the value alone; it
    is not used there. *)
Definition json_Unmarshal_mode_twice (data : list Z) (v : CustomSchedulerArgs)
  : CustomSchedulerArgs * option string :=
  if bool_decide (data = payload_mode_twice)
  then ({| Mode := "Least" |},
        Some "json: cannot unmarshal number into Go struct field CustomSchedulerArgs.mode of type string")
  else (v, Some "json: payload outside this table").

(** Nodes whose allocatable memory is far beyond any machine's, and yet
    an [int64]: none, 10^17 and 1.5 * 10^17 bytes. *)
Definition huge_nodes : gmap string Z :=
  {[ "nodeA" := 0; "nodeB" := 100000000000000000; "nodeC" := 150000000000000000 ]}.

(** The one call [PreFilter] makes before it looks at the labels. *)
Definition PreFilter_log (pod : Pod) : Call :=
  CLog ("Pod " +:+ pod_Name pod +:+ " is in Prefilter phase.").

(** ** The methods that only return a value *)

(** [Name()] *)
Definition CustomScheduler_Name (cs : CustomScheduler) : string := Name.

(** [PreFilterExtensions()]: nil, the plugin has none. *)
Definition PreFilterExtensions (cs : CustomScheduler) : option CustomScheduler := None.

(** [ScoreExtensions()]: the plugin itself, whose [NormalizeScore] the
    host then runs on the batch. *)
Definition ScoreExtensions (cs : CustomScheduler) : option CustomScheduler := Some cs.

(** ** Batches that come from [Score] *)

(** The allocatable memory the handle reports for a node; 0 stands for
    a failed lookup. *)
Definition memory_of (h : Handle) (nodeName : string) : Z :=
  match NodeInfos_Get h nodeName with
  | Ok nodeInfo => Allocatable_Memory_Value nodeInfo
  | Fail _ => 0
  end.

(** The entry holds the score that [Score] returned for its node, with a
    nil status. *)
Definition scored_by (cs : CustomScheduler) (pod : Pod) (ns : NodeScore) : Prop :=
  value (Score cs pod (framework.Name ns)) = (framework.Score ns, None).

(** A capacity whose hundredfold still fits an [int64]. *)
Definition moderate (m : Z) : Prop := 0 <= m /\ m * MaxNodeScore <= Int64.MaxInt64.

(** The first byte of the label is a minus sign. *)
Definition has_minus (s : string) : bool :=
  match bytes s with c :: _ => c =? 45 | [] => false end.

(** What [NormalizeScore] does to one raw score of a batch whose least
    and greatest raw scores are [minScore] and [maxScore]: the midpoint
    when they are equal, the rescaling of the last loop otherwise. *)
Definition normalizer (minScore maxScore : Z) : Z -> Z :=
  if minScore =? maxScore then fun _ => 50 else normalized64 minScore maxScore.

(** * Properties *)

(** Membership in a list that is written out. *)
Ltac each_member H :=
  repeat (apply elem_of_cons in H as [-> | H]); try (by apply elem_of_nil in H).

(** ** 64-bit arithmetic *)

Lemma wrap64_small z : Int64.in_range z -> Int64.wrap64 z = z.
Proof.
  unfold Int64.in_range, Int64.MinInt64, Int64.MaxInt64, Int64.wrap64.
  intros H. rewrite Z.mod_small; lia.
Qed.

Lemma wrap64_in_range z : Int64.in_range (Int64.wrap64 z).
Proof.
  unfold Int64.in_range, Int64.MinInt64, Int64.MaxInt64, Int64.wrap64.
  pose proof (Z.mod_pos_bound (z + 2 ^ 63) (2 ^ 64)). lia.
Qed.

Lemma wrapU64_small z : 0 <= z < 2 ^ 64 -> strconv.wrapU64 z = z.
Proof. intros H. unfold strconv.wrapU64. apply Z.mod_small. lia. Qed.

(** ** Bytes and digits *)

Lemma byte_of_range c : 0 <= byte_of c < 256.
Proof.
  unfold byte_of. pose proof (N_ascii_bounded c) as H.
  lia.
Qed.

Lemma bytes_range s : Forall (fun c => 0 <= c < 256) (bytes s).
Proof.
  unfold bytes. apply List.Forall_forall. intros x Hx.
  apply in_map_iff in Hx as (c & <- & _). apply byte_of_range.
Qed.

Lemma digit_of_digit c : is_digit c = true -> strconv.digit_of c = Some (c - 48) /\ 0 <= c - 48 <= 9.
Proof.
  unfold is_digit, strconv.digit_of. intros H. rewrite H. split; [done | lia].
Qed.

Lemma digit_of_other c d :
  is_digit c = false -> strconv.digit_of c = Some d -> 10 <= d.
Proof.
  unfold is_digit, strconv.digit_of. intros ->.
  destruct (_ && _) eqn:E; [| done].
  intros [= <-]. lia.
Qed.

Lemma wrapU8_digit c : is_digit c = true -> strconv.wrapU8 (c - 48) = c - 48.
Proof.
  unfold is_digit, strconv.wrapU8. intros H. apply Z.mod_small. lia.
Qed.

Lemma wrapU8_other c :
  0 <= c < 256 -> is_digit c = false -> (strconv.wrapU8 (c - 48) >? 9) = true.
Proof.
  unfold is_digit, strconv.wrapU8. intros Hc H.
  destruct (Z.ltb_spec c 48).
  - replace ((c - 48) mod 2 ^ 8) with (c - 48 + 256); [lia |].
    apply (Z.mod_unique _ _ (-1)); lia.
  - rewrite Z.mod_small; lia.
Qed.

Lemma digits_from_ge ds : forall n,
  0 <= n -> forallb is_digit ds = true -> n <= digits_from n ds.
Proof.
  unfold digits_from. induction ds as [| c ds IH]; simpl; intros n Hn H; [lia |].
  apply andb_prop in H as [Hc Hds]. unfold is_digit in Hc.
  etransitivity; [| apply IH]; [lia | lia | done].
Qed.

Lemma digits_from_lt ds : forall n,
  0 <= n -> forallb is_digit ds = true ->
  digits_from n ds < (n + 1) * 10 ^ Z.of_nat (length ds).
Proof.
  unfold digits_from. induction ds as [| c ds IH]; intros n Hn H.
  - simpl. lia.
  - simpl in H. apply andb_prop in H as [Hc Hds]. unfold is_digit in Hc.
    cbn [foldl length]. rewrite Nat2Z.inj_succ, Z.pow_succ_r by lia.
    eapply Z.lt_le_trans; [apply IH; [lia | done] |].
    assert (0 < 10 ^ Z.of_nat (length ds)) by (apply Z.pow_pos_nonneg; lia).
    nia.
Qed.

(** A list of bytes is all digits, or its digits stop at some other byte. *)
Lemma leading_digits_split s :
  forallb is_digit s = false ->
  exists c rest,
    s = leading_digits s ++ c :: rest /\ is_digit c = false.
Proof.
  induction s as [| c s IH]; simpl; [done |].
  destruct (is_digit c) eqn:Hc; simpl.
  - intros H. destruct (IH H) as (c' & rest & Hs & Hc').
    exists c', rest. split; [congruence | done].
  - intros _. by exists c, s.
Qed.

Lemma nonempty_digits_true u :
  nonempty_digits u = true -> u <> [] /\ forallb is_digit u = true.
Proof. by destruct u. Qed.

Lemma nonempty_digits_false c u :
  nonempty_digits (c :: u) = false -> forallb is_digit (c :: u) = false.
Proof. done. Qed.

Lemma leading_digits_digits s : forallb is_digit (leading_digits s) = true.
Proof.
  induction s as [| c s IH]; simpl; [done |].
  destruct (is_digit c) eqn:Hc; simpl; [by rewrite Hc | done].
Qed.

Lemma leading_digits_all s : forallb is_digit s = true -> leading_digits s = s.
Proof.
  induction s as [| c s IH]; simpl; [done |].
  intros H. apply andb_prop in H as [-> H]. by rewrite IH.
Qed.

(** ** [strconv.Atoi] *)

(** Digits are consumed one by one as long as the number fits 64 bits. *)
Lemma ParseUint_loop_digits ds : forall n rest,
  0 <= n -> forallb is_digit ds = true -> digits_from n ds < 2 ^ 64 ->
  strconv.ParseUint_loop 10 strconv.cutoff10 strconv.maxVal64 n (ds ++ rest)
  = strconv.ParseUint_loop 10 strconv.cutoff10 strconv.maxVal64 (digits_from n ds) rest.
Proof.
  induction ds as [| c ds IH]; intros n rest Hn Hds Hlt; [done |].
  simpl in Hds. apply andb_prop in Hds as [Hc Hds].
  destruct (digit_of_digit c Hc) as [Hd Hr].
  assert (Hstep : n * 10 + (c - 48) < 2 ^ 64).
  { eapply Z.le_lt_trans; [| exact Hlt].
    apply (digits_from_ge ds (n * 10 + (c - 48))); [lia | done]. }
  cbn [app strconv.ParseUint_loop]. rewrite Hd.
  assert (Hmax : strconv.maxVal64 = 2 ^ 64 - 1) by reflexivity.
  assert (Hcut : strconv.cutoff10 = 1844674407370955162) by reflexivity.
  destruct (Z.geb_spec (c - 48) 10); [lia |].
  destruct (Z.geb_spec n strconv.cutoff10); [lia |].
  rewrite (wrapU64_small (n * 10)) by lia.
  rewrite (wrapU64_small (n * 10 + (c - 48))) by lia.
  destruct (Z.ltb_spec (n * 10 + (c - 48)) (n * 10)); [lia |].
  destruct (Z.gtb_spec (n * 10 + (c - 48)) strconv.maxVal64); [lia |].
  cbn [orb]. apply IH; [lia | done | done].
Qed.

(** A byte that is no digit ends the loop with a syntax error. *)
Lemma ParseUint_loop_stop n c rest :
  is_digit c = false ->
  strconv.ParseUint_loop 10 strconv.cutoff10 strconv.maxVal64 n (c :: rest) = (0, Some strconv.ErrSyntax).
Proof.
  intros Hc. cbn [strconv.ParseUint_loop].
  destruct (strconv.digit_of c) as [d |] eqn:Hd; [| done].
  pose proof (digit_of_other c d Hc Hd).
  destruct (Z.geb_spec d 10); [done | lia].
Qed.

Lemma ParseUint_digits s :
  s <> [] -> forallb is_digit s = true -> digits_value s < 2 ^ 64 ->
  strconv.ParseUint s = (digits_value s, None).
Proof.
  intros Hne Hds Hlt. unfold strconv.ParseUint.
  destruct s as [| c s]; [done |].
  pose proof (ParseUint_loop_digits (c :: s) 0 []) as H.
  rewrite app_nil_r in H. rewrite H; [done | lia | done | done].
Qed.

Lemma ParseUint_syntax s :
  nonempty_digits s = false ->
  digits_value (leading_digits s) < 2 ^ 64 ->
  strconv.ParseUint s = (0, Some strconv.ErrSyntax).
Proof.
  intros Hwf Hlt. unfold strconv.ParseUint.
  destruct s as [| c s]; [done |].
  unfold nonempty_digits in Hwf.
  destruct (leading_digits_split _ Hwf) as (c' & rest & Hs & Hc').
  rewrite Hs.
  rewrite ParseUint_loop_digits;
    [by apply ParseUint_loop_stop | lia | apply leading_digits_digits | done].
Qed.

Lemma Atoi_loop_digits ds : forall n,
  0 <= n -> forallb is_digit ds = true -> digits_from n ds < 2 ^ 63 ->
  strconv.Atoi_loop n ds = Some (digits_from n ds).
Proof.
  induction ds as [| c ds IH]; intros n Hn Hds Hlt; [done |].
  simpl in Hds. apply andb_prop in Hds as [Hc Hds].
  assert (Hstep : n * 10 + (c - 48) < 2 ^ 63).
  { eapply Z.le_lt_trans; [| exact Hlt].
    apply (digits_from_ge ds (n * 10 + (c - 48))); [unfold is_digit in Hc; lia | done]. }
  cbn [strconv.Atoi_loop]. rewrite (wrapU8_digit c Hc).
  unfold is_digit in Hc.
  destruct (Z.gtb_spec (c - 48) 9); [lia |].
  unfold Int64.add, Int64.mul.
  rewrite (wrap64_small (n * 10)) by (unfold Int64.in_range, Int64.MinInt64, Int64.MaxInt64; lia).
  rewrite wrap64_small by (unfold Int64.in_range, Int64.MinInt64, Int64.MaxInt64; lia).
  apply IH; [lia | done | done].
Qed.

Lemma Atoi_loop_stop ds : forall n c rest,
  forallb is_digit ds = true -> 0 <= c < 256 -> is_digit c = false ->
  strconv.Atoi_loop n (ds ++ c :: rest) = None.
Proof.
  induction ds as [| d ds IH]; intros n c rest Hds Hc Hnd.
  - cbn [app strconv.Atoi_loop]. by rewrite wrapU8_other.
  - simpl in Hds. apply andb_prop in Hds as [Hd Hds].
    cbn [app strconv.Atoi_loop]. rewrite (wrapU8_digit d Hd).
    unfold is_digit in Hd.
    destruct (Z.gtb_spec (d - 48) 9); [lia |].
    by apply IH.
Qed.

Lemma ParseInt_unsigned_part c rest :
  (if c =? 43 then (false, rest)
   else if c =? 45 then (true, rest) else (false, c :: rest))
  = (c =? 45, unsigned_part (c :: rest)).
Proof.
  unfold unsigned_part, strconv.is_sign.
  destruct (Z.eqb_spec c 43) as [-> |]; [done |].
  destruct (Z.eqb_spec c 45); done.
Qed.

Lemma ParseInt_syntax s0 :
  nonempty_digits (unsigned_part s0) = false ->
  digits_value (leading_digits (unsigned_part s0)) < 2 ^ 64 ->
  strconv.ParseInt s0 = (0, Some strconv.ErrSyntax).
Proof.
  intros Hwf Hlt. unfold strconv.ParseInt.
  destruct s0 as [| c rest]; [done |].
  rewrite ParseInt_unsigned_part.
  by rewrite ParseUint_syntax.
Qed.

Lemma ParseInt_value s0 :
  nonempty_digits (unsigned_part s0) = true ->
  let v := digits_value (unsigned_part s0) in
  let neg := match s0 with c :: _ => c =? 45 | [] => false end in
  Int64.in_range (if neg then - v else v) ->
  strconv.ParseInt s0 = (if neg then - v else v, None).
Proof.
  intros Hwf v neg Hr. unfold strconv.ParseInt.
  destruct s0 as [| c rest]; [done |].
  rewrite ParseInt_unsigned_part. subst neg v.
  set (u := unsigned_part (c :: rest)) in *.
  destruct (nonempty_digits_true u Hwf) as [Hne Hds].
  pose proof (digits_from_ge u 0 ltac:(lia) Hds) as Hge. fold (digits_value u) in Hge.
  unfold Int64.in_range, Int64.MinInt64, Int64.MaxInt64 in Hr.
  rewrite ParseUint_digits; [| done | done | destruct (c =? 45); lia].
  change (2 ^ (strconv.intSize - 1)) with (2 ^ 63).
  destruct (c =? 45); cbn [negb andb].
  - destruct (Z.gtb_spec (digits_value u) (2 ^ 63)); [lia |].
    f_equal. unfold Int64.neg.
    destruct (Z.eq_dec (digits_value u) (2 ^ 63)) as [E | E].
    + rewrite E. reflexivity.
    + rewrite (wrap64_small (digits_value u))
        by (unfold Int64.in_range, Int64.MinInt64, Int64.MaxInt64; lia).
      apply wrap64_small. unfold Int64.in_range, Int64.MinInt64, Int64.MaxInt64. lia.
  - destruct (Z.geb_spec (digits_value u) (2 ^ 63)); [lia |].
    f_equal. apply wrap64_small.
    unfold Int64.in_range, Int64.MinInt64, Int64.MaxInt64. lia.
Qed.

(** The fast path and [ParseInt] agree on what is no decimal integer:
    a syntax error and the number 0, unless the digits before the first
    offending byte already exceed 64 bits. *)
Lemma Atoi_syntax s :
  well_formed_decimal s = false -> leading_value s < 2 ^ 64 ->
  strconv.Atoi s = (0, Some strconv.ErrSyntax).
Proof.
  unfold well_formed_decimal, leading_value, strconv.Atoi.
  pose proof (bytes_range s) as Hb. revert Hb.
  generalize (bytes s). intros s0 Hb Hwf Hlt.
  destruct (_ && _) eqn:Hlen.
  - destruct s0 as [| c0 rest]; [done |].
    change (if strconv.is_sign c0 then rest else c0 :: rest)
      with (unsigned_part (c0 :: rest)).
    set (u := unsigned_part (c0 :: rest)) in *.
    assert (Hu : Forall (fun c => 0 <= c < 256) u).
    { subst u. unfold unsigned_part. destruct (strconv.is_sign c0); [| done].
      by inversion Hb. }
    destruct u as [| c u'] eqn:Eu.
    + assert (strconv.is_sign c0 = true) as ->; [| done].
      subst u. unfold unsigned_part in Eu. by destruct (strconv.is_sign c0).
    + replace (strconv.is_sign c0 && (Z.of_nat (length (c :: u')) <? 1)) with false
        by (cbn [length]; destruct (strconv.is_sign c0); cbn [andb]; [| done];
            symmetry; apply Z.ltb_ge; lia).
      destruct (leading_digits_split _ (nonempty_digits_false _ _ Hwf)) as (c' & r & Hs & Hc').
      rewrite Hs. rewrite Atoi_loop_stop; [done | apply leading_digits_digits | | done].
      rewrite Hs in Hu. apply Forall_app in Hu as [_ Hu]. by inversion Hu.
  - by rewrite ParseInt_syntax.
Qed.

(** A decimal integer that fits 64 bits is read as the number it denotes. *)
Lemma Atoi_value s :
  well_formed_decimal s = true -> Int64.in_range (decimal_value s) ->
  strconv.Atoi s = (decimal_value s, None).
Proof.
  unfold well_formed_decimal, decimal_value, strconv.Atoi.
  generalize (bytes s). intros s0 Hwf Hr.
  destruct (_ && _) eqn:Hlen.
  - destruct s0 as [| c0 rest]; [done |].
    apply andb_prop in Hlen as [_ Hlen]. apply Z.ltb_lt in Hlen.
    change (if strconv.is_sign c0 then rest else c0 :: rest)
      with (unsigned_part (c0 :: rest)).
    set (u := unsigned_part (c0 :: rest)) in *.
    destruct (nonempty_digits_true u Hwf) as [Hne Hds].
    assert (Hulen : (length u <= 18)%nat).
    { subst u. unfold unsigned_part. cbn [length] in Hlen.
      destruct (strconv.is_sign c0); cbn [length]; lia. }
    replace (strconv.is_sign c0 && (Z.of_nat (length u) <? 1)) with false
      by (destruct u; [done |]; cbn [length]; destruct (strconv.is_sign c0); cbn [andb];
          [| done]; symmetry; apply Z.ltb_ge; lia).
    pose proof (digits_from_lt u 0 ltac:(lia) Hds) as Hlt.
    pose proof (digits_from_ge u 0 ltac:(lia) Hds) as Hge.
    assert (10 ^ Z.of_nat (length u) <= 10 ^ 18) by (apply Z.pow_le_mono_r; lia).
    rewrite Atoi_loop_digits; [| lia | done | lia].
    fold (digits_value u). unfold digits_value.
    destruct (c0 =? 45); [| done].
    f_equal. apply wrap64_small.
    unfold Int64.in_range, Int64.MinInt64, Int64.MaxInt64. lia.
  - pose proof (ParseInt_value s0 Hwf) as H. cbv zeta in H.
    destruct s0 as [| c0 rest]; [done |].
    by rewrite H.
Qed.

(** [Atoi] on a few labels. *)

Example Atoi_3 : strconv.Atoi "3" = (3, None).
Proof. reflexivity. Qed.

Example Atoi_empty : strconv.Atoi EmptyString = (0, Some strconv.ErrSyntax).
Proof. reflexivity. Qed.

Example Atoi_abc : strconv.Atoi "3x" = (0, Some strconv.ErrSyntax).
Proof. reflexivity. Qed.

Example Atoi_neg : strconv.Atoi "-12" = (-12, None).
Proof. reflexivity. Qed.

Example Atoi_max : strconv.Atoi "9223372036854775807" = (Int64.MaxInt64, None).
Proof. vm_compute. reflexivity. Qed.

Example Atoi_min : strconv.Atoi "-9223372036854775808" = (Int64.MinInt64, None).
Proof. vm_compute. reflexivity. Qed.

Example Atoi_big : strconv.Atoi "9223372036854775808" = (Int64.MaxInt64, Some strconv.ErrRange).
Proof. vm_compute. reflexivity. Qed.

Example Atoi_big_then_letter :
  strconv.Atoi "99999999999999999999x" = (Int64.MaxInt64, Some strconv.ErrRange).
Proof. vm_compute. reflexivity. Qed.

Example Atoi_long_letter :
  strconv.Atoi "1234567890123456789x" = (0, Some strconv.ErrSyntax).
Proof. vm_compute. reflexivity. Qed.

(** ** The loops of [NormalizeScore] *)

Lemma for_range_assign_from f g : forall post pre,
  (forall ns, ns ∈ post -> f (framework.Score ns) = Some (g (framework.Score ns))) ->
  foldl (fun acc i => acc ≫= assign_Score f i) (Some (pre ++ post))
        (seq (length pre) (length post))
  = Some (pre ++ (rescore g <$> post)).
Proof.
  induction post as [| x post IH]; intros pre Hf; [done |].
  cbn [length seq foldl]. rewrite fmap_cons.
  assert (Hx : assign_Score f (length pre) (pre ++ x :: post)
               = Some ((pre ++ [rescore g x]) ++ post)).
  { unfold assign_Score. rewrite list_lookup_middle by done. cbn.
    rewrite Hf by apply list_elem_of_here. cbn.
    rewrite insert_app_r_alt by lia. rewrite Nat.sub_diag. cbn.
    by rewrite <- app_assoc. }
  cbn [mbind option_bind]. rewrite Hx.
  replace (S (length pre)) with (length (pre ++ [rescore g x]))
    by (rewrite length_app; cbn; lia).
  rewrite IH.
  - by rewrite <- app_assoc.
  - intros ns Hns. apply Hf. by apply list_elem_of_further.
Qed.

(** The index loop rewrites every entry from its own old score and
    leaves the slice otherwise as it was. *)
Lemma for_range_assign f g (scores : NodeScoreList) :
  (forall ns, ns ∈ scores -> f (framework.Score ns) = Some (g (framework.Score ns))) ->
  for_range (length scores) (assign_Score f) scores = Some (rescore g <$> scores).
Proof. intros Hf. apply (for_range_assign_from f g scores [] Hf). Qed.

Lemma scan_spec (l : NodeScoreList) : forall mn mx,
  let r := foldl scan_step (mn, mx) l in
  (forall ns, ns ∈ l -> fst r <= framework.Score ns <= snd r) /\
  fst r <= mn /\ mx <= snd r /\
  (fst r = mn \/ exists ns, ns ∈ l /\ framework.Score ns = fst r) /\
  (snd r = mx \/ exists ns, ns ∈ l /\ framework.Score ns = snd r).
Proof.
  induction l as [| x l IH]; intros mn mx; cbn zeta.
  - cbn. split_and!; try lia; try (by left).
    intros ns Hns. by apply elem_of_nil in Hns.
  - cbn [foldl].
    pose (mn' := if framework.Score x <? mn then framework.Score x else mn).
    pose (mx' := if framework.Score x >? mx then framework.Score x else mx).
    change (scan_step (mn, mx) x) with (mn', mx').
    destruct (IH mn' mx') as (Hall & Hmn & Hmx & Hmin & Hmax).
    set (r := foldl scan_step (mn', mx') l) in *.
    assert (Hmn' : mn' <= mn /\ mn' <= framework.Score x
                   /\ (mn' = mn \/ mn' = framework.Score x)).
    { subst mn'. destruct (Z.ltb_spec (framework.Score x) mn); lia. }
    assert (Hmx' : mx <= mx' /\ framework.Score x <= mx'
                   /\ (mx' = mx \/ mx' = framework.Score x)).
    { subst mx'. destruct (Z.gtb_spec (framework.Score x) mx); lia. }
    split_and!; try lia.
    + intros ns Hns. apply elem_of_cons in Hns as [-> | Hns]; [lia | by apply Hall].
    + destruct Hmin as [E | (ns & Hns & E)].
      * destruct Hmn' as (_ & _ & [E' | E']); [left; lia |].
        right. exists x. split; [apply list_elem_of_here | lia].
      * right. exists ns. split; [by apply list_elem_of_further | done].
    + destruct Hmax as [E | (ns & Hns & E)].
      * destruct Hmx' as (_ & _ & [E' | E']); [left; lia |].
        right. exists x. split; [apply list_elem_of_here | lia].
      * right. exists ns. split; [by apply list_elem_of_further | done].
Qed.

(** The first loop leaves the least and the greatest raw score. *)
Lemma scan_min_max s0 (rest : NodeScoreList) :
  let r := foldl scan_step (framework.Score s0, framework.Score s0) (s0 :: rest) in
  is_min_score (fst r) (s0 :: rest) /\ is_max_score (snd r) (s0 :: rest).
Proof.
  cbn zeta.
  destruct (scan_spec (s0 :: rest) (framework.Score s0) (framework.Score s0))
    as (Hall & _ & _ & Hmin & Hmax).
  set (r := foldl scan_step _ _) in *.
  split; (split; [| intros ns Hns; by apply Hall]).
  - destruct Hmin as [E | H]; [| done].
    exists s0. split; [apply list_elem_of_here | done].
  - destruct Hmax as [E | H]; [| done].
    exists s0. split; [apply list_elem_of_here | done].
Qed.

Lemma is_min_score_unique m m' scores :
  is_min_score m scores -> is_min_score m' scores -> m = m'.
Proof.
  intros [(a & Ha & <-) Hle] [(b & Hb & <-) Hle'].
  specialize (Hle b Hb). specialize (Hle' a Ha). lia.
Qed.

Lemma is_max_score_unique m m' scores :
  is_max_score m scores -> is_max_score m' scores -> m = m'.
Proof.
  intros [(a & Ha & <-) Hle] [(b & Hb & <-) Hle'].
  specialize (Hle b Hb). specialize (Hle' a Ha). lia.
Qed.

Lemma sub_nonzero a b :
  Int64.in_range a -> Int64.in_range b -> a <> b -> Int64.sub a b <> 0.
Proof.
  unfold Int64.in_range, Int64.MinInt64, Int64.MaxInt64, Int64.sub, Int64.wrap64.
  intros Ha Hb Hne E.
  pose proof (Z.div_mod (a - b + 2 ^ 63) (2 ^ 64) ltac:(lia)) as Hdm.
  set (q := (a - b + 2 ^ 63) / 2 ^ 64) in *.
  set (r := (a - b + 2 ^ 63) mod 2 ^ 64) in *.
  lia.
Qed.

(** ** [NormalizeScore], case by case *)

Lemma NormalizeScore_empty cs pod :
  NormalizeScore cs pod [] = Some ([], NewStatus Success ["No scores to normalize"]).
Proof. reflexivity. Qed.

Lemma NormalizeScore_equal cs pod scores m :
  is_min_score m scores -> is_max_score m scores ->
  NormalizeScore cs pod scores
  = Some (rescore (fun _ => 50) <$> scores, NewStatus Success [EmptyString]).
Proof.
  intros Hmin Hmax. unfold NormalizeScore.
  destruct scores as [| s0 rest].
  { destruct Hmin as [(ns & Hns & _) _]. by apply elem_of_nil in Hns. }
  destruct (scan_min_max s0 rest) as [Hmin' Hmax'].
  destruct (foldl scan_step _ _) as [mn mx]. cbn [fst snd] in *.
  rewrite (is_min_score_unique _ _ _ Hmin' Hmin), (is_max_score_unique _ _ _ Hmax' Hmax).
  rewrite Z.eqb_refl.
  by rewrite (for_range_assign _ (fun _ => 50)).
Qed.

Lemma NormalizeScore_unequal cs pod scores mn mx :
  int64_scores scores ->
  is_min_score mn scores -> is_max_score mx scores -> mn <> mx ->
  NormalizeScore cs pod scores
  = Some (rescore (normalized64 mn mx) <$> scores, NewStatus Success [EmptyString]).
Proof.
  intros Hr Hmin Hmax Hne. unfold NormalizeScore.
  destruct scores as [| s0 rest].
  { destruct Hmin as [(ns & Hns & _) _]. by apply elem_of_nil in Hns. }
  destruct (scan_min_max s0 rest) as [Hmin' Hmax'].
  destruct (foldl scan_step _ _) as [mn' mx']. cbn [fst snd] in *.
  rewrite (is_min_score_unique _ _ _ Hmin' Hmin), (is_max_score_unique _ _ _ Hmax' Hmax).
  destruct (Z.eqb_spec mn mx); [done |].
  rewrite (for_range_assign _ (normalized64 mn mx)); [done |].
  intros ns _. unfold Int64.div, normalized64.
  assert (Int64.sub mx mn <> 0) as Hnz.
  { destruct Hmin as [(a & Ha & <-) _], Hmax as [(b & Hb & <-) _].
    apply sub_nonzero; [by apply Hr | by apply Hr | done]. }
  destruct (Z.eqb_spec (Int64.sub mx mn) 0); done.
Qed.

(** ** [PreFilter], run *)

Lemma run_PreFilter_unlabelled cs pod :
  pod_Labels pod !! groupNameLabel = None ->
  run (PreFilter cs pod)
  = ((None, NewStatus Success ["no group label"]), [PreFilter_log pod]).
Proof. intros H. unfold PreFilter. cbn [run]. by rewrite H. Qed.

Lemma run_PreFilter_labelled cs pod g :
  pod_Labels pod !! groupNameLabel = Some g ->
  run (PreFilter cs pod)
  = (match Pods_List (handle cs) (pod_Namespace pod) {[ groupNameLabel := g ]} with
     | Fail e => (None, NewStatus Error [e])
     | Ok pods =>
         if Z.of_nat (length pods)
            <? fst (strconv.Atoi (default EmptyString (pod_Labels pod !! minAvailableLabel)))
         then (None, NewStatus Unschedulable ["not enough pods in the group"])
         else (None, NewStatus Success [EmptyString])
     end,
     [PreFilter_log pod; CList (pod_Namespace pod) {[ groupNameLabel := g ]}]).
Proof.
  intros H. unfold PreFilter. cbn [run]. rewrite H. cbn [negb run].
  destruct (Pods_List _ _ _) as [pods | e]; [| done].
  destruct (strconv.Atoi _) as [n err]. cbn [fst].
  by destruct (_ <? n).
Qed.

(** ** [Score], run *)

Lemma run_Score cs pod nodeName :
  value (Score cs pod nodeName)
  = match NodeInfos_Get (handle cs) nodeName with
    | Fail e => (0, Some (NewStatus Error [e]))
    | Ok nodeInfo =>
        if String.eqb (scoreMode cs) leastMode
        then (Int64.neg (Allocatable_Memory_Value nodeInfo), None)
        else if String.eqb (scoreMode cs) mostMode
             then (Allocatable_Memory_Value nodeInfo, None)
             else (0, None)
    end.
Proof.
  unfold value, Score. cbn [run].
  destruct (NodeInfos_Get _ _) as [nodeInfo | e]; [| done].
  destruct (String.eqb _ leastMode); [done |].
  by destruct (String.eqb _ mostMode).
Qed.

Lemma neg_small m :
  Int64.MinInt64 < m <= Int64.MaxInt64 -> Int64.neg m = - m.
Proof.
  intros H. apply wrap64_small.
  unfold Int64.in_range, Int64.MinInt64, Int64.MaxInt64 in *. lia.
Qed.

(** ** Rescaling without overflow *)

Lemma normalized64_exact mn mx raw :
  Int64.in_range mn -> Int64.in_range mx ->
  mn <= raw <= mx -> mn < mx -> (mx - mn) * MaxNodeScore <= Int64.MaxInt64 ->
  normalized64 mn mx raw = normalized mn mx raw.
Proof.
  unfold Int64.in_range, Int64.MinInt64, Int64.MaxInt64, MaxNodeScore.
  intros Hmn Hmx Hraw Hlt Hfit.
  unfold normalized64, normalized, Int64.add, Int64.sub, Int64.mul, MaxNodeScore.
  assert (Hin : forall z, - 2 ^ 63 <= z <= 2 ^ 63 - 1 -> Int64.wrap64 z = z)
    by (intros z Hz; by apply wrap64_small).
  rewrite (Hin (raw - mn)) by lia.
  rewrite (Hin (100 - 0)) by lia.
  rewrite (Hin (mx - mn)) by lia.
  rewrite (Hin ((raw - mn) * (100 - 0))) by lia.
  replace ((raw - mn) * (100 - 0)) with ((raw - mn) * 100) by lia.
  assert (0 <= (raw - mn) * 100 ÷ (mx - mn) <= 100) as Hq.
  { rewrite Z.quot_div_nonneg by lia. split.
    - apply Z.div_pos; lia.
    - apply Z.div_le_upper_bound; lia. }
  rewrite (Hin (_ ÷ _)) by lia.
  rewrite Z.add_0_r. apply Hin. lia.
Qed.

Lemma normalized_bounds mn mx raw :
  mn <= raw <= mx -> mn < mx -> 0 <= normalized mn mx raw <= MaxNodeScore.
Proof.
  unfold normalized, MaxNodeScore. intros Hraw Hlt.
  rewrite Z.quot_div_nonneg by lia. split.
  - apply Z.div_pos; lia.
  - apply Z.div_le_upper_bound; lia.
Qed.

Lemma normalized_min mn mx : normalized mn mx mn = 0.
Proof. unfold normalized. rewrite Z.sub_diag, Z.mul_0_l. reflexivity. Qed.

Lemma normalized_max mn mx : mn < mx -> normalized mn mx mx = MaxNodeScore.
Proof.
  unfold normalized. intros H.
  rewrite Z.mul_comm. apply Z.quot_mul. lia.
Qed.

Lemma normalized_mono mn mx a b :
  mn < mx -> mn <= a -> a <= b -> normalized mn mx a <= normalized mn mx b.
Proof.
  unfold normalized, MaxNodeScore. intros Hlt Ha Hab.
  rewrite !Z.quot_div_nonneg by lia.
  apply Z.div_le_mono; lia.
Qed.

(** * The claims *)

(** C1. A pod that carries the group label and whose group query returns
    [groupSize] pods is rejected as unschedulable, with the message
    "not enough pods in the group", when [groupSize] is below the number
    [Atoi] reads in the [minAvailable] label, and is admitted with a
    success status otherwise. For a label that is a decimal integer
    fitting 64 bits that number is the integer the label denotes. *)
Theorem PreFilter_quorum_threshold cs pod g pods :
  pod_Labels pod !! groupNameLabel = Some g ->
  Pods_List (handle cs) (pod_Namespace pod) {[ groupNameLabel := g ]} = Ok pods ->
  let groupSize := Z.of_nat (length pods) in
  let label := default EmptyString (pod_Labels pod !! minAvailableLabel) in
  let minAvailable := fst (strconv.Atoi label) in
  (groupSize < minAvailable ->
   value (PreFilter cs pod)
   = (None, NewStatus Unschedulable ["not enough pods in the group"]))
  /\ (groupSize >= minAvailable ->
      value (PreFilter cs pod) = (None, NewStatus Success [EmptyString]))
  /\ (well_formed_decimal label = true -> Int64.in_range (decimal_value label) ->
      minAvailable = decimal_value label).
Proof.
  intros Hg Hq groupSize label minAvailable.
  unfold value. rewrite (run_PreFilter_labelled cs pod g Hg), Hq. cbn [fst].
  fold label minAvailable groupSize. split_and!.
  - intros H. by destruct (Z.ltb_spec groupSize minAvailable); [| lia].
  - intros H. by destruct (Z.ltb_spec groupSize minAvailable); [lia |].
  - intros Hwf Hr. subst minAvailable. by rewrite Atoi_value.
Qed.

(** The specification's example: [minAvailable] is 3; with two members
    the pod is rejected, with three it is admitted. *)
Lemma PreFilter_quorum_threshold_witness :
  value (PreFilter (mkCS (cluster two_members two_nodes) leastMode) (worker "3"))
  = (None, NewStatus Unschedulable ["not enough pods in the group"])
  /\ value (PreFilter (mkCS (cluster three_members two_nodes) leastMode) (worker "3"))
     = (None, NewStatus Success [EmptyString]).
Proof.
  split.
  - apply (PreFilter_quorum_threshold
             (mkCS (cluster two_members two_nodes) leastMode) (worker "3") "train"
             [member "w0" "train"; member "w1" "train"]);
      vm_compute; reflexivity.
  - apply (PreFilter_quorum_threshold
             (mkCS (cluster three_members two_nodes) leastMode) (worker "3") "train"
             [member "w2" "train"; member "w0" "train"; member "w1" "train"]);
      vm_compute; congruence.
Defined.

(** C3. When the node lookup succeeds with allocatable memory [m1], the
    raw score is [- m1] in mode Least, [m1] in mode Most and 0 in any
    other mode; of two nodes the one with more memory gets the strictly
    lower score in mode Least and the strictly higher one in mode Most.
    The memory is an [int64] other than the least one, which covers
    every capacity (a capacity is not negative). *)
Theorem Score_by_mode cs pod n1 n2 m1 m2 :
  NodeInfos_Get (handle cs) n1 = Ok (mkNodeInfo m1) ->
  NodeInfos_Get (handle cs) n2 = Ok (mkNodeInfo m2) ->
  Int64.MinInt64 < m1 <= Int64.MaxInt64 ->
  Int64.MinInt64 < m2 <= Int64.MaxInt64 ->
  let s1 := value (Score cs pod n1) in
  let s2 := value (Score cs pod n2) in
  (scoreMode cs = leastMode ->
   s1 = (- m1, None) /\ (m1 < m2 -> fst s2 < fst s1))
  /\ (scoreMode cs = mostMode ->
      s1 = (m1, None) /\ (m1 < m2 -> fst s1 < fst s2))
  /\ (scoreMode cs <> leastMode -> scoreMode cs <> mostMode -> s1 = (0, None)).
Proof.
  intros H1 H2 Hm1 Hm2. cbn zeta. rewrite !run_Score, H1, H2.
  cbn [Allocatable_Memory_Value]. split_and!.
  - intros ->. cbn. rewrite !neg_small by done. split; [done | lia].
  - intros ->. cbn. split; [done | lia].
  - intros Hl Hm.
    apply String.eqb_neq in Hl, Hm. by rewrite Hl, Hm.
Qed.

(** The specification's example: nodeA has 4096, nodeB 8192. *)
Lemma Score_by_mode_witness :
  (value (Score (mkCS (cluster [] two_nodes) leastMode) (worker "3") "nodeA") = (-4096, None)
   /\ (4096 < 8192 ->
       fst (value (Score (mkCS (cluster [] two_nodes) leastMode) (worker "3") "nodeB"))
       < fst (value (Score (mkCS (cluster [] two_nodes) leastMode) (worker "3") "nodeA"))))
  /\ (value (Score (mkCS (cluster [] two_nodes) mostMode) (worker "3") "nodeA") = (4096, None)
      /\ (4096 < 8192 ->
          fst (value (Score (mkCS (cluster [] two_nodes) mostMode) (worker "3") "nodeA"))
          < fst (value (Score (mkCS (cluster [] two_nodes) mostMode) (worker "3") "nodeB")))).
Proof.
  split.
  - apply (Score_by_mode (mkCS (cluster [] two_nodes) leastMode) (worker "3")
             "nodeA" "nodeB" 4096 8192);
      first [reflexivity | unfold Int64.MinInt64, Int64.MaxInt64; lia].
  - apply (Score_by_mode (mkCS (cluster [] two_nodes) mostMode) (worker "3")
             "nodeA" "nodeB" 4096 8192);
      first [reflexivity | unfold Int64.MinInt64, Int64.MaxInt64; lia].
Defined.

(** C7. A pod without the group label is admitted with the message
    "no group label" whatever the handle, the cluster behind it and the
    other labels are; the only call made is the log line, so the pod
    lister is not asked. *)
Theorem PreFilter_no_group_label cs pod :
  pod_Labels pod !! groupNameLabel = None ->
  value (PreFilter cs pod) = (None, NewStatus Success ["no group label"])
  /\ Message (Some (snd (value (PreFilter cs pod)))) = "no group label"
  /\ calls (PreFilter cs pod) = [PreFilter_log pod]
  /\ existsb is_lookup (calls (PreFilter cs pod)) = false.
Proof.
  intros H. unfold value, calls. by rewrite (run_PreFilter_unlabelled cs pod H).
Qed.

Lemma PreFilter_no_group_label_witness :
  value (PreFilter (mkCS (unreachable "informer down") leastMode)
           (mkPod "solo" "default" {[ minAvailableLabel := "7" ]}))
  = (None, NewStatus Success ["no group label"]).
Proof.
  apply (PreFilter_no_group_label (mkCS (unreachable "informer down") leastMode)
           (mkPod "solo" "default" {[ minAvailableLabel := "7" ]})).
  reflexivity.
Defined.

(** C9. A failed group query makes [PreFilter] return an error status
    whose message is the error's text, and a failed node lookup makes
    [Score] return score 0 with an error status whose message is the
    error's text; neither becomes a success or an unschedulable status. *)
Theorem lookup_failure_is_error cs pod g nodeName e :
  (pod_Labels pod !! groupNameLabel = Some g ->
   Pods_List (handle cs) (pod_Namespace pod) {[ groupNameLabel := g ]} = Fail e ->
   value (PreFilter cs pod) = (None, NewStatus Error [e])
   /\ code (snd (value (PreFilter cs pod))) = Error
   /\ Message (Some (snd (value (PreFilter cs pod)))) = e)
  /\ (NodeInfos_Get (handle cs) nodeName = Fail e ->
      value (Score cs pod nodeName) = (0, Some (NewStatus Error [e]))
      /\ Code_of (snd (value (Score cs pod nodeName))) = Error
      /\ Message (snd (value (Score cs pod nodeName))) = e).
Proof.
  split.
  - intros Hg Hq. unfold value.
    by rewrite (run_PreFilter_labelled cs pod g Hg), Hq.
  - intros Hq. by rewrite run_Score, Hq.
Qed.

Lemma lookup_failure_is_error_witness :
  value (PreFilter (mkCS (unreachable "informer down") leastMode) (worker "3"))
  = (None, NewStatus Error ["informer down"])
  /\ value (Score (mkCS (unreachable "informer down") leastMode) (worker "3") "nodeA")
     = (0, Some (NewStatus Error ["informer down"])).
Proof.
  destruct (lookup_failure_is_error (mkCS (unreachable "informer down") leastMode)
              (worker "3") "train" "nodeA" "informer down") as [HP HS].
  split.
  - apply HP; reflexivity.
  - apply HS; reflexivity.
Defined.

(** C10. [PreFilter] returns a nil [PreFilterResult] on every path, so
    it never narrows the set of candidate nodes. *)
Theorem PreFilter_result_nil cs pod :
  fst (value (PreFilter cs pod)) = None
  /\ AllNodes (fst (value (PreFilter cs pod))) = true.
Proof.
  unfold value.
  destruct (pod_Labels pod !! groupNameLabel) as [g |] eqn:Hg.
  - rewrite (run_PreFilter_labelled cs pod g Hg). cbn [fst].
    destruct (Pods_List _ _ _) as [pods | e]; [| done].
    by destruct (_ <? _).
  - by rewrite (run_PreFilter_unlabelled cs pod Hg).
Qed.

(** C4, as the code has it. A pod carries the group label; its
    [minAvailable] label is absent, or is no decimal integer and the
    digits after its optional sign, up to the first other byte, stay
    below 2^64. Then [Atoi] gives 0 with a syntax error, the threshold is
    0, and [PreFilter] admits the pod whenever the group query succeeds. *)
Theorem PreFilter_malformed_threshold cs pod g pods :
  pod_Labels pod !! groupNameLabel = Some g ->
  match pod_Labels pod !! minAvailableLabel with
  | None => True
  | Some s => well_formed_decimal s = false /\ leading_value s < 2 ^ 64
  end ->
  Pods_List (handle cs) (pod_Namespace pod) {[ groupNameLabel := g ]} = Ok pods ->
  strconv.Atoi (default EmptyString (pod_Labels pod !! minAvailableLabel))
  = (0, Some strconv.ErrSyntax)
  /\ value (PreFilter cs pod) = (None, NewStatus Success [EmptyString]).
Proof.
  intros Hg Hs Hq.
  assert (HA : strconv.Atoi (default EmptyString (pod_Labels pod !! minAvailableLabel))
               = (0, Some strconv.ErrSyntax)).
  { destruct (pod_Labels pod !! minAvailableLabel) as [s |]; [| reflexivity].
    destruct Hs as [Hwf Hlt]. by apply Atoi_syntax. }
  split; [done |].
  unfold value. rewrite (run_PreFilter_labelled cs pod g Hg), Hq, HA. cbn [fst].
  by destruct (Z.ltb_spec (Z.of_nat (length pods)) 0); [lia |].
Qed.

Lemma PreFilter_malformed_threshold_witness :
  strconv.Atoi "three" = (0, Some strconv.ErrSyntax)
  /\ value (PreFilter (mkCS (cluster [] two_nodes) leastMode) (worker "three"))
     = (None, NewStatus Success [EmptyString]).
Proof.
  apply (PreFilter_malformed_threshold
           (mkCS (cluster [] two_nodes) leastMode) (worker "three") "train" []);
    vm_compute; auto.
Defined.

(** C4, as stated, fails: the label below is no decimal integer, the
    group query succeeds (with the two members of the group), and yet
    the threshold is 2^63 - 1 and the pod is rejected. [Atoi] stops at
    the twentieth digit with a range error and never reaches the [x]. *)
Lemma PreFilter_range_error_rejects :
  let pod := worker "99999999999999999999x" in
  let cs := mkCS (cluster two_members two_nodes) leastMode in
  pod_Labels pod !! groupNameLabel = Some "train"
  /\ pod_Labels pod !! minAvailableLabel = Some "99999999999999999999x"
  /\ well_formed_decimal "99999999999999999999x" = false
  /\ Pods_List (handle cs) (pod_Namespace pod) {[ groupNameLabel := "train" ]}
     = Ok [member "w0" "train"; member "w1" "train"]
  /\ strconv.Atoi "99999999999999999999x" = (Int64.MaxInt64, Some strconv.ErrRange)
  /\ value (PreFilter cs pod)
     = (None, NewStatus Unschedulable ["not enough pods in the group"]).
Proof. vm_compute. repeat split. Qed.

(** C5, as the code has it. Without a payload [New] succeeds with mode
    Least. With a payload it fails exactly when the mode left in the
    arguments after the call of [json.Unmarshal] is neither Least nor
    Most, with the error "invalid mode, got " and that mode; otherwise
    it succeeds with that mode. An error of [json.Unmarshal] is printed
    and decides nothing by itself. So mode Average fails, and a plugin
    that was created holds Least or Most. *)
Theorem New_outcome
  (json_Unmarshal : list Z -> CustomSchedulerArgs -> CustomSchedulerArgs * option string)
  (h : Handle) :
  value (New json_Unmarshal None h) = (Some (mkCS h leastMode), None)
  /\ (forall args,
        let mode := Mode (fst (json_Unmarshal (Raw args) (mkArgs EmptyString))) in
        (mode <> leastMode /\ mode <> mostMode ->
         value (New json_Unmarshal (Some args) h)
         = (None, Some ("invalid mode, got " +:+ mode)))
        /\ (mode = leastMode \/ mode = mostMode ->
            value (New json_Unmarshal (Some args) h) = (Some (mkCS h mode), None))
        /\ (mode = "Average" ->
            value (New json_Unmarshal (Some args) h)
            = (None, Some "invalid mode, got Average")))
  /\ (forall obj cs,
        fst (value (New json_Unmarshal obj h)) = Some cs ->
        handle cs = h /\ (scoreMode cs = leastMode \/ scoreMode cs = mostMode)).
Proof.
  assert (Hargs : forall args,
            value (New json_Unmarshal (Some args) h)
            = let mode := Mode (fst (json_Unmarshal (Raw args) (mkArgs EmptyString))) in
              if negb (String.eqb mode leastMode) && negb (String.eqb mode mostMode)
              then (None, Some ("invalid mode, got " +:+ mode))
              else (Some (mkCS h mode), None)).
  { intros args. unfold value, New.
    destruct (json_Unmarshal _ _) as [csArgs [e |]]; cbn [fst Mode run];
      by destruct (negb _ && negb _). }
  split_and!.
  - reflexivity.
  - intros args mode. rewrite Hargs. fold mode. cbv zeta.
    destruct (String.eqb_spec mode leastMode) as [El | El],
             (String.eqb_spec mode mostMode) as [Em | Em]; cbn [negb andb];
      split_and!; try done; try (intros [? ?]; done); try (intros [? | ?]; done).
    all: intros E; rewrite E in *; done.
  - intros [args |] cs.
    + rewrite Hargs. cbv zeta. set (mode := Mode _).
      destruct (String.eqb_spec mode leastMode) as [El | El],
               (String.eqb_spec mode mostMode) as [Em | Em]; cbn [negb andb fst];
        intros [= <-]; cbn; auto.
    + intros [= <-]. cbn. auto.
Qed.

(** C5, as stated, fails: on a payload that gives [mode] twice, a
    string and then a number, [json.Unmarshal] returns an error and
    leaves the mode Least; [New] prints the error and succeeds. *)
Lemma New_accepts_failed_payload :
  let args := mkUnknown payload_mode_twice in
  let h := cluster [] two_nodes in
  snd (json_Unmarshal_mode_twice (Raw args) (mkArgs EmptyString)) <> None
  /\ value (New json_Unmarshal_mode_twice (Some args) h) = (Some (mkCS h leastMode), None).
Proof. cbv zeta. split; [by vm_compute | reflexivity]. Qed.

(** C8. A batch that is not empty and whose raw scores are all equal (a
    single entry, say) gets the midpoint [(0 + MaxNodeScore) / 2], which
    is 50, in every entry, names and order kept, and the status is a
    success. *)
Theorem NormalizeScore_all_equal cs pod (scores : NodeScoreList) :
  scores <> [] ->
  (forall a b, a ∈ scores -> b ∈ scores -> framework.Score a = framework.Score b) ->
  NormalizeScore cs pod scores
  = Some (rescore (fun _ => (0 + MaxNodeScore) ÷ 2) <$> scores,
          NewStatus Success [EmptyString])
  /\ (0 + MaxNodeScore) ÷ 2 = 50.
Proof.
  intros Hne Heq. split; [| reflexivity].
  destruct scores as [| s0 rest]; [done |].
  apply (NormalizeScore_equal cs pod (s0 :: rest) (framework.Score s0)).
  - split; [exists s0; split; [apply list_elem_of_here | done] |].
    intros ns Hns. rewrite (Heq s0 ns); [lia | apply list_elem_of_here | done].
  - split; [exists s0; split; [apply list_elem_of_here | done] |].
    intros ns Hns. rewrite (Heq s0 ns); [lia | apply list_elem_of_here | done].
Qed.

(** The specification's example: three equal raw scores. *)
Lemma NormalizeScore_all_equal_witness :
  NormalizeScore (mkCS (cluster [] two_nodes) leastMode) (worker "3")
    [mkNodeScore "nodeA" (-4096); mkNodeScore "nodeB" (-4096); mkNodeScore "nodeC" (-4096)]
  = Some ([mkNodeScore "nodeA" 50; mkNodeScore "nodeB" 50; mkNodeScore "nodeC" 50],
          NewStatus Success [EmptyString]).
Proof.
  apply (NormalizeScore_all_equal (mkCS (cluster [] two_nodes) leastMode) (worker "3")
           [mkNodeScore "nodeA" (-4096); mkNodeScore "nodeB" (-4096);
            mkNodeScore "nodeC" (-4096)]).
  - discriminate.
  - intros a b Ha Hb.
    each_member Ha; each_member Hb; reflexivity.
Defined.

(** C2: the code at a batch that overflows. In mode Most the three nodes
    of [huge_nodes] get the raw scores 0, 10^17 and 1.5 * 10^17. For
    nodeB the product [(raw - minScore) * 100] is 10^19, above 2^63, and
    wraps to a negative number: nodeB is normalized to -56, outside
    [0, MaxNodeScore], and nodeC, which holds the greatest raw score, to
    -22 instead of [MaxNodeScore]. *)
Theorem NormalizeScore_overflow_out_of_range :
  let cs := mkCS (cluster [] huge_nodes) mostMode in
  let pod := worker "3" in
  value (Score cs pod "nodeA") = (0, None)
  /\ value (Score cs pod "nodeB") = (100000000000000000, None)
  /\ value (Score cs pod "nodeC") = (150000000000000000, None)
  /\ NormalizeScore cs pod
       [mkNodeScore "nodeA" 0; mkNodeScore "nodeB" 100000000000000000;
        mkNodeScore "nodeC" 150000000000000000]
     = Some ([mkNodeScore "nodeA" 0; mkNodeScore "nodeB" (-56); mkNodeScore "nodeC" (-22)],
             NewStatus Success [EmptyString]).
Proof. vm_compute. repeat split. Qed.

(** C6: the code at a batch that overflows. In mode Least the three
    nodes of [huge_nodes] get the raw scores 0, -10^17 and -1.5 * 10^17.
    The raw score of nodeB is below that of nodeA, and after the call
    nodeB holds 33 and nodeA holds -22: the order is not kept. *)
Theorem NormalizeScore_overflow_breaks_order :
  let cs := mkCS (cluster [] huge_nodes) leastMode in
  let pod := worker "3" in
  value (Score cs pod "nodeA") = (0, None)
  /\ value (Score cs pod "nodeB") = (-100000000000000000, None)
  /\ value (Score cs pod "nodeC") = (-150000000000000000, None)
  /\ NormalizeScore cs pod
       [mkNodeScore "nodeA" 0; mkNodeScore "nodeB" (-100000000000000000);
        mkNodeScore "nodeC" (-150000000000000000)]
     = Some ([mkNodeScore "nodeA" (-22); mkNodeScore "nodeB" 33; mkNodeScore "nodeC" 0],
             NewStatus Success [EmptyString])
  /\ -100000000000000000 <= 0 /\ -22 < 33.
Proof. vm_compute. repeat split; discriminate. Qed.

(** ** [NormalizeScore] within the range of [int64] *)

Lemma min_max_exist (scores : NodeScoreList) :
  scores <> [] -> exists mn mx, is_min_score mn scores /\ is_max_score mx scores.
Proof.
  destruct scores as [| s0 rest]; [done | intros _].
  destruct (scan_min_max s0 rest) as [Hmin Hmax]. eauto.
Qed.

(** Whatever the scores, as long as each is an [int64]: the call does
    not panic, its status is a success, and the slice keeps its length
    and its names, in their order. *)
Theorem NormalizeScore_frame cs pod (scores : NodeScoreList) :
  int64_scores scores ->
  exists scores' st,
    NormalizeScore cs pod scores = Some (scores', st)
    /\ code st = Success
    /\ length scores' = length scores
    /\ framework.Name <$> scores' = framework.Name <$> scores.
Proof.
  intros Hr.
  destruct scores as [| s0 rest] eqn:Es.
  { eexists _, _. split; [apply NormalizeScore_empty | done]. }
  rewrite <- Es in *.
  destruct (min_max_exist scores) as (mn & mx & Hmin & Hmax); [by rewrite Es |].
  assert (Hnames : forall g, framework.Name <$> (rescore g <$> scores)
                             = framework.Name <$> scores).
  { intros g. rewrite <- list_fmap_compose. by apply list_fmap_ext. }
  destruct (Z.eq_dec mn mx) as [<- | Hne].
  - eexists _, _. split; [apply (NormalizeScore_equal cs pod scores mn Hmin Hmax) |].
    by rewrite length_fmap, Hnames.
  - eexists _, _.
    split; [apply (NormalizeScore_unequal cs pod scores mn mx Hr Hmin Hmax Hne) |].
    by rewrite length_fmap, Hnames.
Qed.

Lemma NormalizeScore_frame_witness :
  exists scores' st,
    NormalizeScore (mkCS (cluster [] huge_nodes) leastMode) (worker "3")
      [mkNodeScore "nodeA" 0; mkNodeScore "nodeB" (-100000000000000000)]
    = Some (scores', st)
    /\ code st = Success
    /\ length scores' = 2%nat
    /\ framework.Name <$> scores' = ["nodeA"; "nodeB"].
Proof.
  apply (NormalizeScore_frame (mkCS (cluster [] huge_nodes) leastMode) (worker "3")
           [mkNodeScore "nodeA" 0; mkNodeScore "nodeB" (-100000000000000000)]).
  intros ns Hns. each_member Hns; vm_compute; split; discriminate.
Defined.

Lemma min_lt_max (scores : NodeScoreList) mn mx :
  is_min_score mn scores -> is_max_score mx scores -> mn <> mx -> mn < mx.
Proof.
  intros [(a & Ha & <-) Hle] [(b & Hb & <-) Hge] Hne.
  specialize (Hle b Hb). lia.
Qed.

(** Without overflow the last loop computes the quotient over the
    integers. *)
Lemma NormalizeScore_exact cs pod (scores : NodeScoreList) mn mx :
  int64_scores scores ->
  is_min_score mn scores -> is_max_score mx scores -> mn <> mx ->
  (mx - mn) * MaxNodeScore <= Int64.MaxInt64 ->
  NormalizeScore cs pod scores
  = Some (rescore (normalized mn mx) <$> scores, NewStatus Success [EmptyString]).
Proof.
  intros Hr Hmin Hmax Hne Hfit.
  pose proof (min_lt_max scores mn mx Hmin Hmax Hne) as Hlt.
  assert (Hmn : Int64.in_range mn) by (destruct Hmin as [(a & Ha & <-) _]; by apply Hr).
  assert (Hmx : Int64.in_range mx) by (destruct Hmax as [(b & Hb & <-) _]; by apply Hr).
  rewrite (NormalizeScore_unequal cs pod scores mn mx Hr Hmin Hmax Hne).
  do 2 f_equal. apply list_fmap_ext. intros i ns Hi.
  unfold rescore. f_equal.
  apply normalized64_exact; try done.
  apply list_elem_of_lookup_2 in Hi. split; [by apply Hmin | by apply Hmax].
Qed.

(** When the raw scores differ and [(maxScore - minScore) * MaxNodeScore]
    fits an [int64], every entry gets
    [(raw - minScore) * MaxNodeScore / (maxScore - minScore)], truncated:
    a number in [0, MaxNodeScore], 0 for the least raw score and
    [MaxNodeScore] for the greatest. *)
Theorem NormalizeScore_bounds cs pod (scores : NodeScoreList) mn mx :
  int64_scores scores ->
  is_min_score mn scores -> is_max_score mx scores -> mn <> mx ->
  (mx - mn) * MaxNodeScore <= Int64.MaxInt64 ->
  NormalizeScore cs pod scores
  = Some (rescore (normalized mn mx) <$> scores, NewStatus Success [EmptyString])
  /\ (forall ns, ns ∈ scores ->
      0 <= normalized mn mx (framework.Score ns) <= MaxNodeScore
      /\ (framework.Score ns = mn -> normalized mn mx (framework.Score ns) = 0)
      /\ (framework.Score ns = mx -> normalized mn mx (framework.Score ns) = MaxNodeScore)).
Proof.
  intros Hr Hmin Hmax Hne Hfit.
  pose proof (min_lt_max scores mn mx Hmin Hmax Hne) as Hlt.
  split; [by apply NormalizeScore_exact |].
  intros ns Hns. split; [| split].
  - apply normalized_bounds; [| done]. split; [by apply Hmin | by apply Hmax].
  - intros ->. apply normalized_min.
  - intros ->. by apply normalized_max.
Qed.

(** The specification's batch: -4096, -8192 and a third node. *)
Lemma NormalizeScore_bounds_witness :
  NormalizeScore (mkCS (cluster [] two_nodes) leastMode) (worker "3")
    [mkNodeScore "nodeA" (-4096); mkNodeScore "nodeB" (-8192); mkNodeScore "nodeC" (-5000)]
  = Some ([mkNodeScore "nodeA" 100; mkNodeScore "nodeB" 0; mkNodeScore "nodeC" 77],
          NewStatus Success [EmptyString]).
Proof.
  apply (NormalizeScore_bounds (mkCS (cluster [] two_nodes) leastMode) (worker "3")
           [mkNodeScore "nodeA" (-4096); mkNodeScore "nodeB" (-8192);
            mkNodeScore "nodeC" (-5000)] (-8192) (-4096)).
  - intros ns Hns. each_member Hns; vm_compute; split; discriminate.
  - split; [exists (mkNodeScore "nodeB" (-8192)); split; [set_solver | done] |].
    intros ns Hns. each_member Hns; cbn; lia.
  - split; [exists (mkNodeScore "nodeA" (-4096)); split; [set_solver | done] |].
    intros ns Hns. each_member Hns; cbn; lia.
  - lia.
  - vm_compute. discriminate.
Defined.

(** Under the same bound (the raw scores may also be all equal), the
    call keeps the order of the scores: an entry whose raw score is at
    most another's is normalized to at most the other's. *)
Theorem NormalizeScore_monotone cs pod (scores : NodeScoreList) mn mx :
  int64_scores scores ->
  is_min_score mn scores -> is_max_score mx scores ->
  (mx - mn) * MaxNodeScore <= Int64.MaxInt64 ->
  exists scores',
    NormalizeScore cs pod scores = Some (scores', NewStatus Success [EmptyString])
    /\ forall i j a b a' b',
         scores !! i = Some a -> scores !! j = Some b ->
         scores' !! i = Some a' -> scores' !! j = Some b' ->
         framework.Score a <= framework.Score b ->
         framework.Score a' <= framework.Score b'.
Proof.
  intros Hr Hmin Hmax Hfit.
  destruct (Z.eq_dec mn mx) as [<- | Hne].
  - eexists. split; [apply (NormalizeScore_equal cs pod scores mn Hmin Hmax) |].
    intros i j a b a' b' Ha Hb Ha' Hb' _.
    rewrite list_lookup_fmap, Ha in Ha'. rewrite list_lookup_fmap, Hb in Hb'.
    cbn in Ha', Hb'. injection Ha' as <-. injection Hb' as <-. done.
  - eexists. split; [by apply NormalizeScore_exact |].
    intros i j a b a' b' Ha Hb Ha' Hb' Hab.
    rewrite list_lookup_fmap, Ha in Ha'. rewrite list_lookup_fmap, Hb in Hb'.
    cbn in Ha', Hb'. injection Ha' as <-. injection Hb' as <-. cbn.
    apply normalized_mono; [by eapply min_lt_max | | done].
    apply Hmin. by eapply list_elem_of_lookup_2.
Qed.

Lemma NormalizeScore_monotone_witness :
  exists scores',
    NormalizeScore (mkCS (cluster [] two_nodes) leastMode) (worker "3")
      [mkNodeScore "nodeA" (-4096); mkNodeScore "nodeB" (-8192)]
    = Some (scores', NewStatus Success [EmptyString])
    /\ forall i j a b a' b',
         [mkNodeScore "nodeA" (-4096); mkNodeScore "nodeB" (-8192)] !! i = Some a ->
         [mkNodeScore "nodeA" (-4096); mkNodeScore "nodeB" (-8192)] !! j = Some b ->
         scores' !! i = Some a' -> scores' !! j = Some b' ->
         framework.Score a <= framework.Score b ->
         framework.Score a' <= framework.Score b'.
Proof.
  apply (NormalizeScore_monotone (mkCS (cluster [] two_nodes) leastMode) (worker "3")
           [mkNodeScore "nodeA" (-4096); mkNodeScore "nodeB" (-8192)] (-8192) (-4096)).
  - intros ns Hns. each_member Hns; vm_compute; split; discriminate.
  - split; [exists (mkNodeScore "nodeB" (-8192)); split; [set_solver | done] |].
    intros ns Hns. each_member Hns; cbn; lia.
  - split; [exists (mkNodeScore "nodeA" (-4096)); split; [set_solver | done] |].
    intros ns Hns. each_member Hns; cbn; lia.
  - vm_compute. discriminate.
Defined.

(** A pod that carries the group label makes exactly one query, after
    the log line: the pods of its own namespace whose group label has
    the pod's value. *)
Theorem PreFilter_query cs pod g :
  pod_Labels pod !! groupNameLabel = Some g ->
  calls (PreFilter cs pod)
  = [PreFilter_log pod; CList (pod_Namespace pod) {[ groupNameLabel := g ]}].
Proof. intros Hg. unfold calls. by rewrite (run_PreFilter_labelled cs pod g Hg). Qed.

Lemma PreFilter_query_witness :
  calls (PreFilter (mkCS (cluster two_members two_nodes) leastMode) (worker "3"))
  = [PreFilter_log (worker "3"); CList "default" {[ groupNameLabel := "train" ]}].
Proof.
  apply (PreFilter_query (mkCS (cluster two_members two_nodes) leastMode) (worker "3") "train").
  reflexivity.
Defined.

(** ** [strconv.Atoi] out of range *)

(** Once the digits read reach 2^64 the loop stops with the range
    error, whatever follows. *)
Lemma ParseUint_loop_overflow ds : forall n rest,
  0 <= n < 2 ^ 64 -> forallb is_digit ds = true -> 2 ^ 64 <= digits_from n ds ->
  strconv.ParseUint_loop 10 strconv.cutoff10 strconv.maxVal64 n (ds ++ rest)
  = (strconv.maxVal64, Some strconv.ErrRange).
Proof.
  induction ds as [| c ds IH]; intros n rest Hn Hds Hge.
  { cbn in Hge. lia. }
  simpl in Hds. apply andb_prop in Hds as [Hc Hds].
  destruct (digit_of_digit c Hc) as [Hd Hr].
  cbn [app strconv.ParseUint_loop]. rewrite Hd.
  assert (Hmax : strconv.maxVal64 = 2 ^ 64 - 1) by reflexivity.
  assert (Hcut : strconv.cutoff10 = 1844674407370955162) by reflexivity.
  destruct (Z.geb_spec (c - 48) 10); [lia |].
  destruct (Z.geb_spec n strconv.cutoff10); [done |].
  rewrite (wrapU64_small (n * 10)) by lia.
  destruct (Z.lt_ge_cases (n * 10 + (c - 48)) (2 ^ 64)) as [Hfit | Hover].
  - rewrite (wrapU64_small (n * 10 + (c - 48))) by lia.
    destruct (Z.ltb_spec (n * 10 + (c - 48)) (n * 10)); [lia |].
    destruct (Z.gtb_spec (n * 10 + (c - 48)) strconv.maxVal64); [lia |].
    cbn [orb]. apply IH; [lia | done | done].
  - assert (Hw : strconv.wrapU64 (n * 10 + (c - 48)) = n * 10 + (c - 48) - 2 ^ 64).
    { unfold strconv.wrapU64. symmetry. apply (Z.mod_unique _ _ 1); lia. }
    rewrite Hw.
    destruct (Z.ltb_spec (n * 10 + (c - 48) - 2 ^ 64) (n * 10)); [done | lia].
Qed.

Lemma leading_digits_app s :
  exists rest, s = leading_digits s ++ rest.
Proof.
  induction s as [| c s [rest IH]]; [by exists [] |].
  cbn. destruct (is_digit c).
  - exists rest. cbn. by rewrite <- IH.
  - by exists (c :: s).
Qed.

Lemma ParseUint_range s :
  2 ^ 64 <= digits_value (leading_digits s) ->
  strconv.ParseUint s = (strconv.maxVal64, Some strconv.ErrRange).
Proof.
  intros Hge. unfold strconv.ParseUint.
  destruct s as [| c s]; [cbn in Hge; lia |].
  destruct (leading_digits_app (c :: s)) as [rest Hs]. rewrite Hs.
  apply ParseUint_loop_overflow; [lia | apply leading_digits_digits | done].
Qed.

(** What [ParseInt] makes of the digits after the sign, [v] being the
    number they write up to the first other byte: beyond 64 bits, or a
    decimal integer beyond the 63 bits of its sign, the result is the
    bound on that side, with the range error. *)
Lemma ParseInt_range s0 :
  let u := unsigned_part s0 in
  let neg := match s0 with c :: _ => c =? 45 | [] => false end in
  2 ^ 64 <= digits_value (leading_digits u)
  \/ (nonempty_digits u = true
      /\ (if neg then 2 ^ 63 < digits_value u else 2 ^ 63 <= digits_value u)) ->
  strconv.ParseInt s0
  = (if neg then Int64.MinInt64 else Int64.MaxInt64, Some strconv.ErrRange).
Proof.
  intros u neg H. unfold strconv.ParseInt.
  destruct s0 as [| c rest].
  { cbn in *. destruct H as [H | [H _]]; [lia | done]. }
  rewrite ParseInt_unsigned_part. fold u. subst neg.
  change (2 ^ (strconv.intSize - 1)) with (2 ^ 63).
  assert (Hmax : strconv.maxVal64 = 2 ^ 64 - 1) by reflexivity.
  destruct (Z.lt_ge_cases (digits_value (leading_digits u)) (2 ^ 64)) as [Hlt | Hge].
  - destruct H as [H | [Hwf Hv]]; [lia |].
    destruct (nonempty_digits_true u Hwf) as [Hne Hds].
    rewrite (leading_digits_all u Hds) in Hlt.
    rewrite ParseUint_digits by done.
    destruct (c =? 45); cbn [negb andb].
    + destruct (Z.gtb_spec (digits_value u) (2 ^ 63)); [reflexivity | lia].
    + destruct (Z.geb_spec (digits_value u) (2 ^ 63)); [reflexivity | lia].
  - rewrite ParseUint_range by lia. rewrite Hmax.
    destruct (c =? 45); reflexivity.
Qed.

(** A number of at least 2^63 takes at least 19 digits. *)
Lemma digits_long ds :
  forallb is_digit ds = true -> 2 ^ 63 <= digits_value ds -> (19 <= length ds)%nat.
Proof.
  intros Hds Hv.
  pose proof (digits_from_lt ds 0 ltac:(lia) Hds) as Hlt. fold (digits_value ds) in Hlt.
  destruct (Nat.le_gt_cases 19 (length ds)) as [| Hshort]; [done |].
  assert (10 ^ Z.of_nat (length ds) <= 10 ^ 18) by (apply Z.pow_le_mono_r; lia).
  lia.
Qed.

Lemma leading_digits_length s : (length (leading_digits s) <= length s)%nat.
Proof.
  induction s as [| c s IH]; cbn; [lia |].
  destruct (is_digit c); cbn; lia.
Qed.

Lemma unsigned_part_length s : (length (unsigned_part s) <= length s)%nat.
Proof.
  destruct s as [| c s]; cbn; [lia |].
  destruct (strconv.is_sign c); cbn; lia.
Qed.

(** [Atoi] on such a label: the bound, with the range error. *)
Lemma Atoi_range s :
  2 ^ 64 <= leading_value s
  \/ (well_formed_decimal s = true
      /\ (if has_minus s then decimal_value s < Int64.MinInt64
          else Int64.MaxInt64 < decimal_value s)) ->
  strconv.Atoi s
  = (if has_minus s then Int64.MinInt64 else Int64.MaxInt64, Some strconv.ErrRange).
Proof.
  unfold leading_value, well_formed_decimal, decimal_value, has_minus, strconv.Atoi.
  generalize (bytes s). intros s0 H.
  set (u := unsigned_part s0) in *.
  assert (Hspec : 2 ^ 64 <= digits_value (leading_digits u)
                  \/ (nonempty_digits u = true
                      /\ (if match s0 with c :: _ => c =? 45 | [] => false end
                          then 2 ^ 63 < digits_value u else 2 ^ 63 <= digits_value u))).
  { destruct H as [H | [Hwf Hv]]; [by left | right]. split; [done |].
    unfold Int64.MinInt64, Int64.MaxInt64 in Hv.
    destruct s0 as [| c rest]; [lia |]. destruct (c =? 45); lia. }
  assert (Hlen : (19 <= length s0)%nat).
  { pose proof (unsigned_part_length s0). fold u in H0.
    pose proof (leading_digits_length u).
    destruct Hspec as [Hv | [Hwf Hv]].
    - pose proof (digits_long (leading_digits u) (leading_digits_digits u) ltac:(lia)). lia.
    - destruct (nonempty_digits_true u Hwf) as [_ Hds].
      assert (2 ^ 63 <= digits_value u) by (destruct s0 as [| c ?]; [| destruct (c =? 45)]; lia).
      pose proof (digits_long u Hds ltac:(done)). lia. }
  replace ((0 <? Z.of_nat (length s0)) && (Z.of_nat (length s0) <? 19)) with false
    by (symmetry; apply andb_false_iff; right; apply Z.ltb_ge; lia).
  by rewrite (ParseInt_range s0 Hspec).
Qed.

(** ** More on [PreFilter] *)

(** A [minAvailable] label that is a decimal integer not above zero,
    however far below, never rejects: the pod is admitted whenever the
    group query succeeds, also when the group is empty. *)
Theorem PreFilter_nonpositive_threshold cs pod g s pods :
  pod_Labels pod !! groupNameLabel = Some g ->
  pod_Labels pod !! minAvailableLabel = Some s ->
  well_formed_decimal s = true -> decimal_value s <= 0 ->
  Pods_List (handle cs) (pod_Namespace pod) {[ groupNameLabel := g ]} = Ok pods ->
  value (PreFilter cs pod) = (None, NewStatus Success [EmptyString]).
Proof.
  intros Hg Hs Hwf Hv Hq.
  unfold value. rewrite (run_PreFilter_labelled cs pod g Hg), Hq, Hs. cbn [fst default from_option id].
  assert (fst (strconv.Atoi s) <= 0) as Hle.
  { destruct (Z.le_gt_cases Int64.MinInt64 (decimal_value s)) as [Hin | Hout].
    - rewrite Atoi_value; [done | done |].
      unfold Int64.in_range, Int64.MinInt64, Int64.MaxInt64 in *. lia.
    - assert (has_minus s = true) as Hm.
      { unfold has_minus, decimal_value in *. unfold Int64.MinInt64 in Hout.
        destruct (bytes s) as [| c rest] eqn:Eb.
        - unfold well_formed_decimal in Hwf. by rewrite Eb in Hwf.
        - destruct (c =? 45); [done |].
          unfold well_formed_decimal in Hwf. rewrite Eb in *.
          destruct (nonempty_digits_true _ Hwf) as [_ Hds].
          pose proof (digits_from_ge _ 0 ltac:(lia) Hds) as Hge.
          unfold digits_value in Hout. lia. }
      rewrite Atoi_range; rewrite Hm; [done |].
      right. by split. }
  by destruct (Z.ltb_spec (Z.of_nat (length pods)) (fst (strconv.Atoi s))); [lia |].
Qed.

Lemma PreFilter_nonpositive_threshold_witness :
  value (PreFilter (mkCS (cluster [] two_nodes) leastMode) (worker "-3"))
  = (None, NewStatus Success [EmptyString]).
Proof.
  apply (PreFilter_nonpositive_threshold
           (mkCS (cluster [] two_nodes) leastMode) (worker "-3") "train" "-3" []);
    vm_compute; first [reflexivity | discriminate].
Defined.

(** A [minAvailable] label without a minus sign whose digits run
    beyond the range of [int] (a decimal integer above 2^63 - 1, or any
    label whose leading digits reach 2^64) gives the threshold
    2^63 - 1: the range error is dropped with the others, and the pod
    is rejected whatever group a lister can return. *)
Theorem PreFilter_saturated_threshold cs pod g s pods :
  pod_Labels pod !! groupNameLabel = Some g ->
  pod_Labels pod !! minAvailableLabel = Some s ->
  has_minus s = false ->
  2 ^ 64 <= leading_value s
  \/ (well_formed_decimal s = true /\ Int64.MaxInt64 < decimal_value s) ->
  Pods_List (handle cs) (pod_Namespace pod) {[ groupNameLabel := g ]} = Ok pods ->
  Z.of_nat (length pods) < Int64.MaxInt64 ->
  strconv.Atoi s = (Int64.MaxInt64, Some strconv.ErrRange)
  /\ value (PreFilter cs pod)
     = (None, NewStatus Unschedulable ["not enough pods in the group"]).
Proof.
  intros Hg Hs Hm Hv Hq Hlen.
  assert (HA : strconv.Atoi s = (Int64.MaxInt64, Some strconv.ErrRange)).
  { rewrite Atoi_range; rewrite Hm; [done | done]. }
  split; [done |].
  unfold value. rewrite (run_PreFilter_labelled cs pod g Hg), Hq, Hs. cbn [fst default from_option id].
  rewrite HA. cbn [fst].
  by destruct (Z.ltb_spec (Z.of_nat (length pods)) Int64.MaxInt64); [| lia].
Qed.

Lemma PreFilter_saturated_threshold_witness :
  strconv.Atoi "9223372036854775808" = (Int64.MaxInt64, Some strconv.ErrRange)
  /\ value (PreFilter (mkCS (cluster three_members two_nodes) leastMode)
              (worker "9223372036854775808"))
     = (None, NewStatus Unschedulable ["not enough pods in the group"]).
Proof.
  apply (PreFilter_saturated_threshold
           (mkCS (cluster three_members two_nodes) leastMode)
           (worker "9223372036854775808") "train" "9223372036854775808"
           [member "w2" "train"; member "w0" "train"; member "w1" "train"]).
  - reflexivity.
  - reflexivity.
  - reflexivity.
  - right. vm_compute. split; reflexivity.
  - vm_compute. reflexivity.
  - vm_compute. reflexivity.
Defined.

(** A larger group never does worse: if the pod is admitted with the
    answer of one lister, it is admitted with any answer that has at
    least as many pods. *)
Theorem PreFilter_monotone_in_group_size cs1 cs2 pod g pods1 pods2 :
  pod_Labels pod !! groupNameLabel = Some g ->
  Pods_List (handle cs1) (pod_Namespace pod) {[ groupNameLabel := g ]} = Ok pods1 ->
  Pods_List (handle cs2) (pod_Namespace pod) {[ groupNameLabel := g ]} = Ok pods2 ->
  (length pods1 <= length pods2)%nat ->
  code (snd (value (PreFilter cs1 pod))) = Success ->
  code (snd (value (PreFilter cs2 pod))) = Success.
Proof.
  intros Hg H1 H2 Hlen. unfold value.
  rewrite !(run_PreFilter_labelled _ pod g Hg), H1, H2. cbn [fst].
  set (t := fst (strconv.Atoi _)).
  destruct (Z.ltb_spec (Z.of_nat (length pods1)) t); [done |].
  intros _. by destruct (Z.ltb_spec (Z.of_nat (length pods2)) t); [lia |].
Qed.

Lemma PreFilter_monotone_in_group_size_witness :
  code (snd (value (PreFilter (mkCS (cluster three_members two_nodes) leastMode) (worker "2"))))
  = Success.
Proof.
  apply (PreFilter_monotone_in_group_size
           (mkCS (cluster two_members two_nodes) leastMode)
           (mkCS (cluster three_members two_nodes) leastMode) (worker "2") "train"
           [member "w0" "train"; member "w1" "train"]
           [member "w2" "train"; member "w0" "train"; member "w1" "train"]);
    first [reflexivity | cbn; lia].
Defined.

(** The status tells what happened, for every pod and handle: an error
    means the group query failed, unschedulable means the query
    succeeded with fewer pods than the threshold [Atoi] read, and no
    other code than success, error and unschedulable is returned. *)
Theorem PreFilter_status_cause cs pod :
  let st := snd (value (PreFilter cs pod)) in
  let query g := Pods_List (handle cs) (pod_Namespace pod) {[ groupNameLabel := g ]} in
  let threshold :=
    fst (strconv.Atoi (default EmptyString (pod_Labels pod !! minAvailableLabel))) in
  (code st = Error <->
   exists g e, pod_Labels pod !! groupNameLabel = Some g /\ query g = Fail e)
  /\ (code st = Unschedulable <->
      exists g pods, pod_Labels pod !! groupNameLabel = Some g /\ query g = Ok pods
                     /\ Z.of_nat (length pods) < threshold)
  /\ (code st = Success \/ code st = Error \/ code st = Unschedulable).
Proof.
  cbn zeta. unfold value.
  destruct (pod_Labels pod !! groupNameLabel) as [g |] eqn:Hg.
  - rewrite (run_PreFilter_labelled cs pod g Hg). cbn [fst snd].
    destruct (Pods_List _ _ _) as [pods | e] eqn:Hq.
    + set (t := fst (strconv.Atoi _)).
      destruct (Z.ltb_spec (Z.of_nat (length pods)) t) as [Hlt | Hge]; cbn [snd code NewStatus].
      * split; [| split]; [| | auto].
        -- split; [done |]. intros (g' & e & [= Eg] & Hq'). subst g'.
           rewrite Hq in Hq'. done.
        -- split; [| done]. intros _. by exists g, pods.
      * split; [| split]; [| | auto].
        -- split; [done |]. intros (g' & e & [= Eg] & Hq'). subst g'.
           rewrite Hq in Hq'. done.
        -- split; [done |]. intros (g' & pods' & [= Eg] & Hq' & Hlt). subst g'.
           rewrite Hq in Hq'. injection Hq' as <-. lia.
    + cbn [snd code NewStatus]. split; [| split]; [| | auto].
      * split; [| done]. intros _. by exists g, e.
      * split; [done |]. intros (g' & pods' & [= Eg] & Hq' & _). subst g'.
        rewrite Hq in Hq'. done.
  - rewrite (run_PreFilter_unlabelled cs pod Hg). cbn [fst snd code NewStatus].
    split; [| split]; [| | auto].
    + split; [done |]. by intros (g' & e & [=] & _).
    + split; [done |]. by intros (g' & pods' & [=] & _).
Qed.

(** ** [New], its calls *)

(** Construction never asks the handle anything. It prints the error of
    [json.Unmarshal] when there is one, also when it then succeeds, and
    it logs the mode exactly when it succeeds. *)
Theorem New_calls
  (json_Unmarshal : list Z -> CustomSchedulerArgs -> CustomSchedulerArgs * option string)
  (obj : option Unknown) (h : Handle) :
  calls (New json_Unmarshal obj h)
  = match obj with
    | None => []
    | Some args =>
        match snd (json_Unmarshal (Raw args) (mkArgs EmptyString)) with
        | Some e => [CPrint ("Error unmarshal: " +:+ e +:+ String (ascii_of_nat 10) EmptyString)]
        | None => []
        end
    end
    ++ match fst (value (New json_Unmarshal obj h)) with
       | Some cs => [CLog ("Custom scheduler runs with the mode: " +:+ scoreMode cs +:+ ".")]
       | None => []
       end
  /\ existsb is_lookup (calls (New json_Unmarshal obj h)) = false.
Proof.
  unfold calls, value, New. destruct obj as [args |]; [| done].
  destruct (json_Unmarshal _ _) as [csArgs [e |]]; cbn [fst snd Mode run];
    by destruct (negb _ && negb _).
Qed.

(** ** [NormalizeScore], entry by entry *)

Lemma NormalizeScore_by_min_max cs pod (scores : NodeScoreList) mn mx :
  int64_scores scores -> is_min_score mn scores -> is_max_score mx scores ->
  NormalizeScore cs pod scores
  = Some (rescore (normalizer mn mx) <$> scores, NewStatus Success [EmptyString]).
Proof.
  intros Hr Hmin Hmax. unfold normalizer.
  destruct (Z.eqb_spec mn mx) as [<- | Hne].
  - by apply NormalizeScore_equal with mn.
  - by apply NormalizeScore_unequal.
Qed.



Lemma rescore_lookup g (scores : NodeScoreList) i a a' :
  scores !! i = Some a -> (rescore g <$> scores) !! i = Some a' ->
  framework.Score a' = g (framework.Score a) /\ framework.Name a' = framework.Name a.
Proof.
  intros Ha Ha'. rewrite list_lookup_fmap, Ha in Ha'.
  cbn in Ha'. by injection Ha' as <-.
Qed.

(** The normalized score of an entry depends on its raw score and on
    the least and the greatest raw score of its batch, and on nothing
    else: not on the plugin's mode or handle, the pod, the names, the
    other scores or the place in the batch. Overflow does not change
    that. In particular equal raw scores stay equal. *)
Theorem NormalizeScore_depends_on_min_max
  cs1 pod1 cs2 pod2 (scores1 scores2 : NodeScoreList) mn mx :
  int64_scores scores1 -> int64_scores scores2 ->
  is_min_score mn scores1 -> is_max_score mx scores1 ->
  is_min_score mn scores2 -> is_max_score mx scores2 ->
  exists r1 r2 st,
    NormalizeScore cs1 pod1 scores1 = Some (r1, st)
    /\ NormalizeScore cs2 pod2 scores2 = Some (r2, st)
    /\ forall i j a b a' b',
         scores1 !! i = Some a -> scores2 !! j = Some b ->
         r1 !! i = Some a' -> r2 !! j = Some b' ->
         framework.Score a = framework.Score b ->
         framework.Score a' = framework.Score b'.
Proof.
  intros Hr1 Hr2 Hmin1 Hmax1 Hmin2 Hmax2.
  eexists _, _, _. split_and!.
  - by apply (NormalizeScore_by_min_max cs1 pod1 scores1 mn mx).
  - by apply (NormalizeScore_by_min_max cs2 pod2 scores2 mn mx).
  - intros i j a b a' b' Ha Hb Ha' Hb' E.
    destruct (rescore_lookup _ _ _ _ _ Ha Ha') as [-> _].
    destruct (rescore_lookup _ _ _ _ _ Hb Hb') as [-> _].
    by rewrite E.
Qed.

Lemma NormalizeScore_depends_on_min_max_witness :
  exists r1 r2 st,
    NormalizeScore (mkCS (cluster [] two_nodes) leastMode) (worker "3")
      [mkNodeScore "nodeA" 0; mkNodeScore "nodeB" 7; mkNodeScore "nodeC" 10]
    = Some (r1, st)
    /\ NormalizeScore (mkCS (unreachable "informer down") mostMode) (worker "2")
         [mkNodeScore "n1" 10; mkNodeScore "n2" 0; mkNodeScore "n3" 7; mkNodeScore "n4" 7]
       = Some (r2, st)
    /\ forall i j a b a' b',
         [mkNodeScore "nodeA" 0; mkNodeScore "nodeB" 7; mkNodeScore "nodeC" 10] !! i = Some a ->
         [mkNodeScore "n1" 10; mkNodeScore "n2" 0; mkNodeScore "n3" 7; mkNodeScore "n4" 7] !! j
         = Some b ->
         r1 !! i = Some a' -> r2 !! j = Some b' ->
         framework.Score a = framework.Score b ->
         framework.Score a' = framework.Score b'.
Proof.
  apply (NormalizeScore_depends_on_min_max
           (mkCS (cluster [] two_nodes) leastMode) (worker "3")
           (mkCS (unreachable "informer down") mostMode) (worker "2")
           [mkNodeScore "nodeA" 0; mkNodeScore "nodeB" 7; mkNodeScore "nodeC" 10]
           [mkNodeScore "n1" 10; mkNodeScore "n2" 0; mkNodeScore "n3" 7; mkNodeScore "n4" 7]
           0 10).
  - intros ns Hns. each_member Hns; vm_compute; split; discriminate.
  - intros ns Hns. each_member Hns; vm_compute; split; discriminate.
  - split; [exists (mkNodeScore "nodeA" 0); split; [set_solver | done] |].
    intros ns Hns. each_member Hns; cbn; lia.
  - split; [exists (mkNodeScore "nodeC" 10); split; [set_solver | done] |].
    intros ns Hns. each_member Hns; cbn; lia.
  - split; [exists (mkNodeScore "n2" 0); split; [set_solver | done] |].
    intros ns Hns. each_member Hns; cbn; lia.
  - split; [exists (mkNodeScore "n1" 10); split; [set_solver | done] |].
    intros ns Hns. each_member Hns; cbn; lia.
Defined.



(** ** [NormalizeScore] within the bound, once more *)

Lemma normalizer_exact mn mx raw :
  Int64.in_range mn -> Int64.in_range mx -> mn <= raw <= mx ->
  (mx - mn) * MaxNodeScore <= Int64.MaxInt64 ->
  normalizer mn mx raw = if mn =? mx then 50 else normalized mn mx raw.
Proof.
  intros Hmn Hmx Hraw Hfit. unfold normalizer.
  destruct (Z.eqb_spec mn mx); [done |].
  apply normalized64_exact; try done. lia.
Qed.

Lemma normalized_id x : normalized 0 MaxNodeScore x = x.
Proof.
  unfold normalized, MaxNodeScore. rewrite !Z.sub_0_r. apply Z.quot_mul. lia.
Qed.

Lemma pairwise_bound (scores : NodeScoreList) mn mx :
  (forall a b, a ∈ scores -> b ∈ scores ->
     (framework.Score b - framework.Score a) * MaxNodeScore <= Int64.MaxInt64) ->
  is_min_score mn scores -> is_max_score mx scores ->
  (mx - mn) * MaxNodeScore <= Int64.MaxInt64.
Proof.
  intros Hb [(a & Ha & <-) _] [(b & Hb' & <-) _]. by apply Hb.
Qed.

(** The result of a call, when all raw scores are [int64] and no two
    are further apart than a hundredth of the [int64] range. *)
Lemma NormalizeScore_within cs pod (scores : NodeScoreList) mn mx :
  int64_scores scores -> is_min_score mn scores -> is_max_score mx scores ->
  (mx - mn) * MaxNodeScore <= Int64.MaxInt64 ->
  NormalizeScore cs pod scores
  = Some (rescore (fun raw => if mn =? mx then 50 else normalized mn mx raw) <$> scores,
          NewStatus Success [EmptyString]).
Proof.
  intros Hr Hmin Hmax Hfit.
  rewrite (NormalizeScore_by_min_max cs pod scores mn mx Hr Hmin Hmax).
  do 2 f_equal. apply list_fmap_ext. intros i ns Hi.
  apply list_elem_of_lookup_2 in Hi.
  unfold rescore. f_equal. apply normalizer_exact; try done.
  - destruct Hmin as [(a & Ha & <-) _]. by apply Hr.
  - destruct Hmax as [(b & Hb & <-) _]. by apply Hr.
  - split; [by apply Hmin | by apply Hmax].
Qed.

(** Normalizing twice is normalizing once: on the batch it has left,
    the call changes nothing and returns the same status. The raw
    scores are [int64] and no two of them are further apart than a
    hundredth of the [int64] range. *)
Theorem NormalizeScore_idempotent cs pod (scores : NodeScoreList) :
  int64_scores scores ->
  (forall a b, a ∈ scores -> b ∈ scores ->
     (framework.Score b - framework.Score a) * MaxNodeScore <= Int64.MaxInt64) ->
  exists r st,
    NormalizeScore cs pod scores = Some (r, st)
    /\ NormalizeScore cs pod r = Some (r, st).
Proof.
  intros Hr Hb.
  destruct scores as [| s0 rest] eqn:Es.
  { by eexists _, _. }
  rewrite <- Es in *.
  destruct (min_max_exist scores) as (mn & mx & Hmin & Hmax); [by rewrite Es |].
  pose proof (pairwise_bound scores mn mx Hb Hmin Hmax) as Hfit.
  pose proof (NormalizeScore_within cs pod scores mn mx Hr Hmin Hmax Hfit) as HN.
  assert (Hback : forall g k,
            (forall ns, ns ∈ scores -> k (g (framework.Score ns)) = g (framework.Score ns)) ->
            rescore k <$> (rescore g <$> scores) = rescore g <$> scores).
  { intros g k Hk. rewrite <- list_fmap_compose. apply list_fmap_ext.
    intros i ns Hi. apply list_elem_of_lookup_2 in Hi.
    unfold rescore. cbn. f_equal. by apply Hk. }
  destruct Hmin as [(a & Ha & Ea) Hle]. destruct Hmax as [(b & Hb' & Eb) Hge].
  revert HN. destruct (Z.eqb_spec mn mx) as [E | Hne]; intros HN;
    eexists _, _; (split; [exact HN |]);
    match goal with |- context [rescore ?f <$> scores] => set (g := f) end.
  - rewrite (NormalizeScore_equal cs pod (rescore g <$> scores) 50).
    + by rewrite Hback.
    + split.
      * exists (rescore g a). split; [by apply list_elem_of_fmap_2 | done].
      * intros ns Hns. apply list_elem_of_fmap in Hns as (y & -> & _). subst g. cbn. lia.
    + split.
      * exists (rescore g a). split; [by apply list_elem_of_fmap_2 | done].
      * intros ns Hns. apply list_elem_of_fmap in Hns as (y & -> & _). subst g. cbn. lia.
  - assert (Hlt : mn < mx) by (specialize (Hle b Hb'); lia).
    assert (Hrange : forall ns, ns ∈ scores ->
              0 <= g (framework.Score ns) <= MaxNodeScore).
    { intros ns Hns. apply normalized_bounds; [| done].
      split; [by apply Hle | by apply Hge]. }
    rewrite (NormalizeScore_within cs pod (rescore g <$> scores) 0 MaxNodeScore).
    + change (0 =? MaxNodeScore) with false. cbv iota.
      rewrite Hback; [done |]. intros ns _. apply normalized_id.
    + intros ns Hns. apply list_elem_of_fmap in Hns as (y & -> & Hy).
      specialize (Hrange y Hy). cbn.
      unfold Int64.in_range, Int64.MinInt64, Int64.MaxInt64, MaxNodeScore in *. lia.
    + split.
      * exists (rescore g a). split; [by apply list_elem_of_fmap_2 |].
        cbn. subst g. cbn. rewrite Ea. apply normalized_min.
      * intros ns Hns. apply list_elem_of_fmap in Hns as (y & -> & Hy).
        cbn. by apply Hrange.
    + split.
      * exists (rescore g b). split; [by apply list_elem_of_fmap_2 |].
        cbn. subst g. cbn. rewrite Eb. by apply normalized_max.
      * intros ns Hns. apply list_elem_of_fmap in Hns as (y & -> & Hy).
        cbn. by apply Hrange.
    + vm_compute. discriminate.
Qed.

Lemma NormalizeScore_idempotent_witness :
  exists r st,
    NormalizeScore (mkCS (cluster [] two_nodes) leastMode) (worker "3")
      [mkNodeScore "nodeA" (-4096); mkNodeScore "nodeB" (-8192); mkNodeScore "nodeC" (-5000)]
    = Some (r, st)
    /\ NormalizeScore (mkCS (cluster [] two_nodes) leastMode) (worker "3") r = Some (r, st).
Proof.
  apply (NormalizeScore_idempotent (mkCS (cluster [] two_nodes) leastMode) (worker "3")
           [mkNodeScore "nodeA" (-4096); mkNodeScore "nodeB" (-8192);
            mkNodeScore "nodeC" (-5000)]).
  - intros ns Hns. each_member Hns; vm_compute; split; discriminate.
  - intros a b Ha Hb. each_member Ha; each_member Hb; vm_compute; discriminate.
Defined.

(** ** [NormalizeScore] beyond the bound *)

Lemma quot_below p d :
  Int64.in_range p -> 0 < d -> p < d * 100 ->
  Int64.in_range (p ÷ d) /\ p ÷ d < 100.
Proof.
  unfold Int64.in_range, Int64.MinInt64, Int64.MaxInt64. intros Hp Hd Hlt.
  destruct (Z.le_gt_cases 0 p) as [Hpos | Hneg].
  - rewrite Z.quot_div_nonneg by lia.
    pose proof (Z.div_pos p d Hpos Hd).
    pose proof (Z.div_le_upper_bound p d p Hd ltac:(nia)).
    pose proof (Z.div_lt_upper_bound p d 100 Hd Hlt). lia.
  - replace p with (- - p) by lia. rewrite Z.quot_opp_l by lia.
    rewrite Z.quot_div_nonneg by lia.
    pose proof (Z.div_pos (- p) d ltac:(lia) Hd).
    pose proof (Z.div_le_upper_bound (- p) d (- p) Hd ltac:(nia)). lia.
Qed.

(** When the difference of the greatest and the least raw score fits an
    [int64] and its hundredfold does not, the product overflows for the
    greatest raw score: the entries that hold it get less than
    [MaxNodeScore], so no node of the batch gets the top score it is
    due. *)
Theorem NormalizeScore_overflow_loses_max cs pod (scores : NodeScoreList) mn mx :
  int64_scores scores -> is_min_score mn scores -> is_max_score mx scores ->
  mx - mn <= Int64.MaxInt64 -> Int64.MaxInt64 < (mx - mn) * MaxNodeScore ->
  exists r,
    NormalizeScore cs pod scores = Some (r, NewStatus Success [EmptyString])
    /\ forall i a a',
         scores !! i = Some a -> r !! i = Some a' ->
         framework.Score a = mx -> framework.Score a' < MaxNodeScore.
Proof.
  intros Hr Hmin Hmax Hd Hover.
  assert (Hmn : Int64.in_range mn) by (destruct Hmin as [(a & Ha & <-) _]; by apply Hr).
  assert (Hmx : Int64.in_range mx) by (destruct Hmax as [(b & Hb & <-) _]; by apply Hr).
  assert (Hlt : mn < mx).
  { destruct Hmin as [(a & Ha & <-) Hle]. destruct Hmax as [(b & Hb & <-) _].
    specialize (Hle b Hb). unfold MaxNodeScore, Int64.MaxInt64 in Hover.
    destruct (Z.eq_dec (framework.Score a) (framework.Score b)) as [E | E]; [| lia].
    rewrite E, Z.sub_diag in Hover. lia. }
  eexists. split; [apply (NormalizeScore_unequal cs pod scores mn mx); [done .. | lia] |].
  intros i a a' Ha Ha' Ea.
  destruct (rescore_lookup _ _ _ _ _ Ha Ha') as [-> _]. rewrite Ea.
  unfold normalized64, Int64.add, Int64.sub, Int64.mul, MaxNodeScore.
  unfold Int64.in_range, Int64.MinInt64, Int64.MaxInt64, MaxNodeScore in *.
  rewrite (wrap64_small (mx - mn))
    by (unfold Int64.in_range, Int64.MinInt64, Int64.MaxInt64; lia).
  rewrite (wrap64_small (100 - 0))
    by (unfold Int64.in_range, Int64.MinInt64, Int64.MaxInt64; lia).
  set (p := Int64.wrap64 ((mx - mn) * (100 - 0))).
  pose proof (wrap64_in_range ((mx - mn) * (100 - 0))) as Hp. fold p in Hp.
  destruct (quot_below p (mx - mn) Hp ltac:(lia)) as [Hq Hq100].
  { unfold Int64.in_range, Int64.MinInt64, Int64.MaxInt64 in Hp. lia. }
  rewrite (wrap64_small (p ÷ (mx - mn))) by done.
  rewrite Z.add_0_r, wrap64_small by done. done.
Qed.

Lemma NormalizeScore_overflow_loses_max_witness :
  exists r,
    NormalizeScore (mkCS (cluster [] huge_nodes) mostMode) (worker "3")
      [mkNodeScore "nodeA" 0; mkNodeScore "nodeC" 150000000000000000]
    = Some (r, NewStatus Success [EmptyString])
    /\ forall i a a',
         [mkNodeScore "nodeA" 0; mkNodeScore "nodeC" 150000000000000000] !! i = Some a ->
         r !! i = Some a' ->
         framework.Score a = 150000000000000000 -> framework.Score a' < MaxNodeScore.
Proof.
  apply (NormalizeScore_overflow_loses_max (mkCS (cluster [] huge_nodes) mostMode) (worker "3")
           [mkNodeScore "nodeA" 0; mkNodeScore "nodeC" 150000000000000000]
           0 150000000000000000).
  - intros ns Hns. each_member Hns; vm_compute; split; discriminate.
  - split; [exists (mkNodeScore "nodeA" 0); split; [set_solver | done] |].
    intros ns Hns. each_member Hns; cbn; lia.
  - split; [exists (mkNodeScore "nodeC" 150000000000000000); split; [set_solver | done] |].
    intros ns Hns. each_member Hns; cbn; lia.
  - vm_compute. discriminate.
  - vm_compute. reflexivity.
Defined.

(** ** From [Score] to [NormalizeScore] *)

(** The raw score of an entry that [Score] produced. *)
Lemma scored_raw cs pod ns :
  scored_by cs pod ns -> moderate (memory_of (handle cs) (framework.Name ns)) ->
  framework.Score ns
  = if String.eqb (scoreMode cs) leastMode then - memory_of (handle cs) (framework.Name ns)
    else if String.eqb (scoreMode cs) mostMode then memory_of (handle cs) (framework.Name ns)
         else 0.
Proof.
  unfold scored_by, memory_of, moderate, MaxNodeScore, Int64.MaxInt64.
  rewrite run_Score.
  destruct (NodeInfos_Get _ _) as [nodeInfo | e]; [| done].
  intros Hs [Hm0 Hm].
  destruct (String.eqb _ leastMode).
  - injection Hs as <-. apply neg_small. unfold Int64.MinInt64, Int64.MaxInt64. lia.
  - destruct (String.eqb _ mostMode); by injection Hs as <-.
Qed.

Lemma NormalizeScore_order cs pod (scores : NodeScoreList) :
  int64_scores scores ->
  (forall a b, a ∈ scores -> b ∈ scores ->
     (framework.Score b - framework.Score a) * MaxNodeScore <= Int64.MaxInt64) ->
  exists r st,
    NormalizeScore cs pod scores = Some (r, st) /\ code st = Success
    /\ forall i j a b a' b',
         scores !! i = Some a -> scores !! j = Some b ->
         r !! i = Some a' -> r !! j = Some b' ->
         framework.Score a <= framework.Score b ->
         framework.Score a' <= framework.Score b'.
Proof.
  intros Hr Hb.
  destruct scores as [| s0 rest] eqn:Es.
  { eexists _, _. split_and!; [done | done |]. intros i j a b a' b' Ha. done. }
  rewrite <- Es in *.
  destruct (min_max_exist scores) as (mn & mx & Hmin & Hmax); [by rewrite Es |].
  pose proof (pairwise_bound scores mn mx Hb Hmin Hmax) as Hfit.
  eexists _, _. split_and!;
    [by apply (NormalizeScore_within cs pod scores mn mx) | done |].
  intros i j a b a' b' Ha Hb' Ha' Hb'' Hab.
  destruct (rescore_lookup _ _ _ _ _ Ha Ha') as [-> _].
  destruct (rescore_lookup _ _ _ _ _ Hb' Hb'') as [-> _].
  destruct (Z.eqb_spec mn mx) as [E | Hne]; [done |].
  apply normalized_mono; [by eapply min_lt_max | | done].
  apply Hmin. by eapply list_elem_of_lookup_2.
Qed.

(** A batch that [Score] produced from moderate capacities: what its
    raw scores are, that they are [int64], and how far apart they lie. *)
Lemma scored_batch cs pod (scores : NodeScoreList) :
  (forall ns, ns ∈ scores ->
     scored_by cs pod ns /\ moderate (memory_of (handle cs) (framework.Name ns))) ->
  forall ns, ns ∈ scores ->
    0 <= memory_of (handle cs) (framework.Name ns)
    /\ memory_of (handle cs) (framework.Name ns) * 100 <= 2 ^ 63 - 1
    /\ framework.Score ns
       = if String.eqb (scoreMode cs) leastMode
         then - memory_of (handle cs) (framework.Name ns)
         else if String.eqb (scoreMode cs) mostMode
              then memory_of (handle cs) (framework.Name ns) else 0.
Proof.
  intros Hs ns Hns. destruct (Hs ns Hns) as [H1 H2].
  pose proof (scored_raw cs pod ns H1 H2) as E.
  destruct H2 as [H2 H3]. unfold MaxNodeScore, Int64.MaxInt64 in H3. done.
Qed.

Lemma scored_batch_int64 cs pod (scores : NodeScoreList) :
  (forall ns, ns ∈ scores ->
     scored_by cs pod ns /\ moderate (memory_of (handle cs) (framework.Name ns))) ->
  int64_scores scores.
Proof.
  intros Hs ns Hns. destruct (scored_batch cs pod scores Hs ns Hns) as (H0 & H1 & ->).
  unfold Int64.in_range, Int64.MinInt64, Int64.MaxInt64.
  destruct (String.eqb _ leastMode); [lia |].
  destruct (String.eqb _ mostMode); lia.
Qed.

Lemma scored_batch_apart cs pod (scores : NodeScoreList) :
  (forall ns, ns ∈ scores ->
     scored_by cs pod ns /\ moderate (memory_of (handle cs) (framework.Name ns))) ->
  forall a b, a ∈ scores -> b ∈ scores ->
    (framework.Score b - framework.Score a) * MaxNodeScore <= Int64.MaxInt64.
Proof.
  intros Hs a b Ha Hb.
  destruct (scored_batch cs pod scores Hs a Ha) as (Ha0 & Ha1 & ->).
  destruct (scored_batch cs pod scores Hs b Hb) as (Hb0 & Hb1 & ->).
  unfold MaxNodeScore, Int64.MaxInt64.
  destruct (String.eqb _ leastMode); [lia |].
  destruct (String.eqb _ mostMode); lia.
Qed.

(** The two steps together. Every entry of the batch holds the score
    [Score] returned for its node, and every node has a capacity whose
    hundredfold fits an [int64]. Then the call succeeds, and of two
    nodes the one with less allocatable memory is normalized at least
    as high in mode Least, and at most as high in mode Most. *)
Theorem ranking_follows_memory cs pod (scores : NodeScoreList) :
  (forall ns, ns ∈ scores ->
     scored_by cs pod ns /\ moderate (memory_of (handle cs) (framework.Name ns))) ->
  exists r st,
    NormalizeScore cs pod scores = Some (r, st) /\ code st = Success
    /\ forall i j a b a' b',
         scores !! i = Some a -> scores !! j = Some b ->
         r !! i = Some a' -> r !! j = Some b' ->
         memory_of (handle cs) (framework.Name a) <= memory_of (handle cs) (framework.Name b) ->
         (scoreMode cs = leastMode -> framework.Score b' <= framework.Score a')
         /\ (scoreMode cs = mostMode -> framework.Score a' <= framework.Score b').
Proof.
  intros Hs.
  pose proof (scored_batch cs pod scores Hs) as Hraw.
  destruct (NormalizeScore_order cs pod scores) as (r & st & HN & Hst & Hord).
  - by apply (scored_batch_int64 cs pod).
  - by apply (scored_batch_apart cs pod).
  - exists r, st. split_and!; [done | done |].
    intros i j a b a' b' Ha Hb Ha' Hb' Hmem.
    destruct (Hraw a (list_elem_of_lookup_2 _ _ _ Ha)) as (_ & _ & Ea).
    destruct (Hraw b (list_elem_of_lookup_2 _ _ _ Hb)) as (_ & _ & Eb).
    split.
    + intros Hmode. rewrite Hmode in Ea, Eb. cbn in Ea, Eb.
      apply (Hord j i b a b' a'); try done. lia.
    + intros Hmode. rewrite Hmode in Ea, Eb. cbn in Ea, Eb.
      apply (Hord i j a b a' b'); try done. lia.
Qed.

Lemma ranking_follows_memory_witness :
  exists r st,
    NormalizeScore (mkCS (cluster [] two_nodes) leastMode) (worker "3")
      [mkNodeScore "nodeA" (-4096); mkNodeScore "nodeB" (-8192)] = Some (r, st)
    /\ code st = Success
    /\ forall i j a b a' b',
         [mkNodeScore "nodeA" (-4096); mkNodeScore "nodeB" (-8192)] !! i = Some a ->
         [mkNodeScore "nodeA" (-4096); mkNodeScore "nodeB" (-8192)] !! j = Some b ->
         r !! i = Some a' -> r !! j = Some b' ->
         memory_of (cluster [] two_nodes) (framework.Name a)
         <= memory_of (cluster [] two_nodes) (framework.Name b) ->
         (leastMode = leastMode -> framework.Score b' <= framework.Score a')
         /\ (leastMode = mostMode -> framework.Score a' <= framework.Score b').
Proof.
  apply (ranking_follows_memory (mkCS (cluster [] two_nodes) leastMode) (worker "3")
           [mkNodeScore "nodeA" (-4096); mkNodeScore "nodeB" (-8192)]).
  intros ns Hns. each_member Hns; (split; [reflexivity | vm_compute; split; discriminate]).
Defined.

Lemma within_max mn mx :
  mn < mx -> (if mn =? mx then 50 else normalized mn mx mx) = MaxNodeScore.
Proof.
  intros H. destruct (Z.eqb_spec mn mx); [lia | by apply normalized_max].
Qed.

Lemma within_min mn mx :
  mn < mx -> (if mn =? mx then 50 else normalized mn mx mn) = 0.
Proof.
  intros H. destruct (Z.eqb_spec mn mx); [lia | by apply normalized_min].
Qed.

(** The two steps together, at the ends. Under the same conditions, when
    the nodes do not all have the same allocatable memory: in mode Least
    a node with the least memory is normalized to [MaxNodeScore] and one
    with the most memory to 0, and in mode Most it is the other way
    round. *)
Theorem extreme_memory_extreme_score cs pod (scores : NodeScoreList) :
  (forall ns, ns ∈ scores ->
     scored_by cs pod ns /\ moderate (memory_of (handle cs) (framework.Name ns))) ->
  exists r st,
    NormalizeScore cs pod scores = Some (r, st)
    /\ forall i a a',
         scores !! i = Some a -> r !! i = Some a' ->
         (exists ns, ns ∈ scores
            /\ memory_of (handle cs) (framework.Name ns)
               <> memory_of (handle cs) (framework.Name a)) ->
         ((forall ns, ns ∈ scores ->
             memory_of (handle cs) (framework.Name a)
             <= memory_of (handle cs) (framework.Name ns)) ->
          (scoreMode cs = leastMode -> framework.Score a' = MaxNodeScore)
          /\ (scoreMode cs = mostMode -> framework.Score a' = 0))
         /\ ((forall ns, ns ∈ scores ->
                memory_of (handle cs) (framework.Name ns)
                <= memory_of (handle cs) (framework.Name a)) ->
             (scoreMode cs = leastMode -> framework.Score a' = 0)
             /\ (scoreMode cs = mostMode -> framework.Score a' = MaxNodeScore)).
Proof.
  intros Hs.
  pose proof (scored_batch cs pod scores Hs) as Hraw.
  pose proof (scored_batch_int64 cs pod scores Hs) as Hr.
  pose proof (scored_batch_apart cs pod scores Hs) as Hb.
  destruct scores as [| s0 rest] eqn:Es.
  { eexists _, _. split; [done |]. intros i a a' Ha. done. }
  rewrite <- Es in *.
  destruct (min_max_exist scores) as (mn & mx & Hmin & Hmax); [by rewrite Es |].
  pose proof (pairwise_bound scores mn mx Hb Hmin Hmax) as Hfit.
  eexists _, _. split; [by apply (NormalizeScore_within cs pod scores mn mx) |].
  intros i a a' Ha Ha' (c & Hc & Hne).
  destruct (rescore_lookup _ _ _ _ _ Ha Ha') as [-> _].
  apply list_elem_of_lookup_2 in Ha.
  destruct (Hraw a Ha) as (_ & _ & Ea). destruct (Hraw c Hc) as (_ & _ & Ec).
  assert (Htop : forall m, is_max_score m scores -> m = mx)
    by (intros m Hm; by apply (is_max_score_unique m mx scores)).
  assert (Hbot : forall m, is_min_score m scores -> m = mn)
    by (intros m Hm; by apply (is_min_score_unique m mn scores)).
  assert (Hcmn : mn <= framework.Score c <= mx) by (split; [by apply Hmin | by apply Hmax]).
  assert (Hamn : mn <= framework.Score a <= mx) by (split; [by apply Hmin | by apply Hmax]).
  split; intros Hext; split; intros Hmode; rewrite Hmode in Ea, Ec; cbn in Ea, Ec.
  - rewrite (Htop (framework.Score a)).
    + apply within_max. specialize (Hext c Hc). lia.
    + split; [by exists a |]. intros ns Hns.
      destruct (Hraw ns Hns) as (_ & _ & En). rewrite Hmode in En. cbn in En.
      specialize (Hext ns Hns). lia.
  - rewrite (Hbot (framework.Score a)).
    + apply within_min. specialize (Hext c Hc). lia.
    + split; [by exists a |]. intros ns Hns.
      destruct (Hraw ns Hns) as (_ & _ & En). rewrite Hmode in En. cbn in En.
      specialize (Hext ns Hns). lia.
  - rewrite (Hbot (framework.Score a)).
    + apply within_min. specialize (Hext c Hc). lia.
    + split; [by exists a |]. intros ns Hns.
      destruct (Hraw ns Hns) as (_ & _ & En). rewrite Hmode in En. cbn in En.
      specialize (Hext ns Hns). lia.
  - rewrite (Htop (framework.Score a)).
    + apply within_max. specialize (Hext c Hc). lia.
    + split; [by exists a |]. intros ns Hns.
      destruct (Hraw ns Hns) as (_ & _ & En). rewrite Hmode in En. cbn in En.
      specialize (Hext ns Hns). lia.
Qed.

Lemma extreme_memory_extreme_score_witness :
  exists r st,
    NormalizeScore (mkCS (cluster [] two_nodes) leastMode) (worker "3")
      [mkNodeScore "nodeA" (-4096); mkNodeScore "nodeB" (-8192)] = Some (r, st)
    /\ forall i a a',
         [mkNodeScore "nodeA" (-4096); mkNodeScore "nodeB" (-8192)] !! i = Some a ->
         r !! i = Some a' ->
         (exists ns, ns ∈ [mkNodeScore "nodeA" (-4096); mkNodeScore "nodeB" (-8192)]
            /\ memory_of (cluster [] two_nodes) (framework.Name ns)
               <> memory_of (cluster [] two_nodes) (framework.Name a)) ->
         ((forall ns, ns ∈ [mkNodeScore "nodeA" (-4096); mkNodeScore "nodeB" (-8192)] ->
             memory_of (cluster [] two_nodes) (framework.Name a)
             <= memory_of (cluster [] two_nodes) (framework.Name ns)) ->
          (leastMode = leastMode -> framework.Score a' = MaxNodeScore)
          /\ (leastMode = mostMode -> framework.Score a' = 0))
         /\ ((forall ns, ns ∈ [mkNodeScore "nodeA" (-4096); mkNodeScore "nodeB" (-8192)] ->
                memory_of (cluster [] two_nodes) (framework.Name ns)
                <= memory_of (cluster [] two_nodes) (framework.Name a)) ->
             (leastMode = leastMode -> framework.Score a' = 0)
             /\ (leastMode = mostMode -> framework.Score a' = MaxNodeScore)).
Proof.
  apply (extreme_memory_extreme_score (mkCS (cluster [] two_nodes) leastMode) (worker "3")
           [mkNodeScore "nodeA" (-4096); mkNodeScore "nodeB" (-8192)]).
  intros ns Hns. each_member Hns; (split; [reflexivity | vm_compute; split; discriminate]).
Defined.
